(** * Tello-Attention: the EEG attention pipeline and its flight loop

    A shallow embedding of [attention_handler.py] (class [AttentionHandler])
    and of [main.py] ([MainApplication.processing_data]).

    Numbers.  The Python code computes on IEEE doubles.  Here every finite
    score, power value and threshold is a rational ([Q]), so the arithmetic
    is exact; the non-finite results a NumPy division can produce are kept
    as separate constructors of [npfloat].  Rational results are compared
    with [==] ([Qeq]).

    Effects.  The flight loop talks to two devices, the LSL inlet and the
    Tello controller.  Their calls are recorded in a trace, and a fault
    oracle decides which call raises. *)

From Stdlib Require Import QArith Qabs Lqa ZArith Lia Bool String Arith List Sorted.
Import ListNotations.

Local Open Scope Q_scope.

(** ** Comparisons on scores *)

(** Python's [a < b] on finite numbers. *)
Definition Qltb (a b : Q) : bool := negb (Qle_bool b a).

Infix "<?" := Qltb (at level 70, no associativity) : Q_scope.
Infix "<=?" := Qle_bool (at level 70, no associativity) : Q_scope.

(** ** Configuration of an [AttentionHandler]

    Only the fields the modelled methods read.  [__init__] sets
    [alpha_threshold = 0.6] and [beta_threshold = 20]. *)

Record handler : Type := mkHandler {
  alpha_threshold : Q;
  beta_threshold : Q;
  fs : nat
}.

Definition default_handler : handler :=
  {| alpha_threshold := 6 # 10; beta_threshold := 20; fs := 125 |}.

(** ** [signal_scaling] *)

(** The [if]/[elif] pair that both bands share, for a threshold [T]:
    the chained comparison [2*T < value < 4*T], then [4*T < value]. *)
Definition compress (T value : Q) : Q :=
  if (2 * T <? value) && (value <? 4 * T) then value * (1 # 2) + 1
  else if 4 * T <? value then value * (1 # 4) + 1
  else value.

(** [signal_scaling(self, type, value)], written branch by branch as in the
    source: the ['beta'] branch, and the [else] branch taken by every other
    band name. *)
Definition signal_scaling (self : handler) (type : string) (value : Q) : Q :=
  if String.eqb type "beta" then
    let value :=
      if (2 * beta_threshold self <? value) && (value <? 4 * beta_threshold self)
      then value * (1 # 2) + 1
      else if 4 * beta_threshold self <? value then value * (1 # 4) + 1
      else value in
    if 50 <? beta_threshold self then beta_threshold self + 1 else value
  else
    let value :=
      if (2 * alpha_threshold self <? value) && (value <? 4 * alpha_threshold self)
      then value * (1 # 2) + 1
      else if 4 * alpha_threshold self <? value then value * (1 # 4) + 1
      else value in
    if 1 <? alpha_threshold self then alpha_threshold self + 1 else value.

(** The threshold a band name selects, and its clamp guard. *)
Definition band_threshold (self : handler) (type : string) : Q :=
  if String.eqb type "beta" then beta_threshold self else alpha_threshold self.

Definition clamp_guard (self : handler) (type : string) : bool :=
  if String.eqb type "beta" then 50 <? beta_threshold self
  else 1 <? alpha_threshold self.

(** Which of the three branches of [compress] an input takes. *)
Inductive segment : Type := Middle | Upper | Unscaled.

Definition segment_of (T value : Q) : segment :=
  if (2 * T <? value) && (value <? 4 * T) then Middle
  else if 4 * T <? value then Upper
  else Unscaled.

(** What the specification's pseudo-code computes before the clamp:
    [if v > 4T: 0.25v+1  elif v > 2T: 0.5v+1  else: v]. *)
Definition spec_scale (T v : Q) : Q :=
  if 4 * T <? v then v * (1 # 4) + 1
  else if 2 * T <? v then v * (1 # 2) + 1
  else v.

(** ** [threshold_based_classification]

    The rule list is generic in the type of scores and in the two
    comparisons, so that what is proved of it holds for any reading of
    Python's [>] and [<], doubles with NaN included. *)

Section Classifier.
Variable score : Type.
Variables gt lt : score -> score -> bool.
Variables alpha_thr beta_thr : score.

Definition classify_with (alpha_power beta_power : score) : Z :=
  if gt alpha_power alpha_thr then 1%Z
  else if gt beta_power beta_thr && lt alpha_power alpha_thr then 2%Z
  else if gt alpha_power alpha_thr && gt beta_power beta_thr then 3%Z
  else 4%Z.
End Classifier.

(** The classifier on rational scores. *)
Definition threshold_based_classification
    (self : handler) (alpha_power beta_power : Q) : Z :=
  classify_with Q (fun a b => b <? a) Qltb
    (alpha_threshold self) (beta_threshold self) alpha_power beta_power.

(** The four command codes. *)
Definition ALPHA_DOMINANT : Z := 1.
Definition BETA_DOMINANT : Z := 2.
Definition BOTH_DOMINANT : Z := 3.
Definition NEITHER : Z := 4.

(** ** Python exceptions and results *)

(** The exceptions the modelled code can meet.  [KeyboardInterrupt] is the
    only one that is not a subclass of [Exception].  The last two are the
    names of the specification's error taxonomy; no line of the source
    raises them. *)
Inductive pyexn : Type :=
  | KeyboardInterrupt
  | IndexError
  | ValueError
  | StreamError
  | ActuatorError
  | DegenerateBandError
  | ZeroTotalPowerError.

Definition is_Exception (e : pyexn) : bool :=
  match e with KeyboardInterrupt => false | _ => true end.

Inductive outcome (A : Type) : Type :=
  | Ok (a : A)
  | Raise (e : pyexn).
Arguments Ok {A} a.
Arguments Raise {A} e.

(** ** Peak selection: [non_maximum_suppression] *)

(** [scipy.signal.find_peaks(x)] with no condition returns the midpoints
    that [_local_maxima_1d] finds.  Its two [while] loops are modelled with
    fuel; [find_peaks] gives them the length of the array, which is enough
    (lemma [local_maxima_fuel]).

    Inner loop: [while i_ahead < i_max and x[i_ahead] == x[i]: i_ahead += 1]. *)
Fixpoint look_ahead (fuel : nat) (x : list Q) (xi : Q) (i_ahead i_max : nat) : nat :=
  match fuel with
  | O => i_ahead
  | S fuel' =>
      if (i_ahead <? i_max)%nat && Qeq_bool (nth i_ahead x 0) xi
      then look_ahead fuel' x xi (S i_ahead) i_max
      else i_ahead
  end.

(** Outer loop: [while i < i_max], a peak when the sample before is smaller
    and the next unequal sample is smaller too; the midpoint of the plateau
    is recorded and the scan resumes after [i_ahead]. *)
Fixpoint local_maxima_loop (fuel : nat) (x : list Q) (i i_max : nat) : list nat :=
  match fuel with
  | O => []
  | S fuel' =>
      if (i <? i_max)%nat then
        if nth (i - 1) x 0 <? nth i x 0 then
          let i_ahead := look_ahead (i_max - i) x (nth i x 0) (S i) i_max in
          if nth i_ahead x 0 <? nth i x 0 then
            ((i + (i_ahead - 1)) / 2)%nat :: local_maxima_loop fuel' x (S i_ahead) i_max
          else local_maxima_loop fuel' x (S i) i_max
        else local_maxima_loop fuel' x (S i) i_max
      else []
  end.

Definition find_peaks (x : list Q) : list nat :=
  local_maxima_loop (length x) x 1 (length x - 1).

(** The Python slice [l[start:stop]] for indices that are not negative. *)
Definition slice {A : Type} (l : list A) (start stop : nat) : list A :=
  firstn (stop - start) (skipn start l).

(** [np.max]: a [ValueError] on an empty array. *)
Definition np_max (l : list Q) : outcome Q :=
  match l with
  | [] => Raise ValueError
  | v :: rest => Ok (fold_left (fun m w => if m <? w then w else m) rest v)
  end.

(** The [for peak in peaks] loop; [selected] is the list built so far.
    [window_size] is a number of bins. *)
Fixpoint nms_loop (psd : list Q) (window_size : nat)
    (peaks selected : list nat) : outcome (list nat) :=
  match peaks with
  | [] => Ok selected
  | peak :: rest =>
      let start := Nat.max 0 (peak - window_size) in
      let stop := Nat.min (length psd) (peak + window_size) in
      match np_max (slice psd start stop) with
      | Raise e => Raise e
      | Ok m =>
          if Qeq_bool (nth peak psd 0) m
          then nms_loop psd window_size rest (selected ++ [peak])
          else nms_loop psd window_size rest selected
      end
  end.

Definition non_maximum_suppression (psd : list Q) (window_size : nat)
    : outcome (list nat) :=
  nms_loop psd window_size (find_peaks psd) [].

(** The test of the loop as a predicate on a peak: its window is not
    empty and the peak equals the maximum over it. *)
Definition keeps (psd : list Q) (window_size peak : nat) : bool :=
  match np_max (slice psd (Nat.max 0 (peak - window_size))
                          (Nat.min (length psd) (peak + window_size))) with
  | Ok m => Qeq_bool (nth peak psd 0) m
  | Raise _ => false
  end.

(** A plateau [l..r] of equal samples with a smaller sample on each side. *)
Definition plateau_peak (x : list Q) (l r : nat) : Prop :=
  (1 <= l <= r)%nat /\ (r + 1 < length x)%nat
  /\ nth (l - 1) x 0 < nth l x 0
  /\ (forall k, (l <= k <= r)%nat -> nth k x 0 == nth l x 0)
  /\ nth (r + 1) x 0 < nth l x 0.

(** A local peak: the midpoint of such a plateau. *)
Definition local_peak (x : list Q) (p : nat) : Prop :=
  exists l r, plateau_peak x l r /\ p = ((l + r) / 2)%nat.

(** The window of the specification: indices [i-r .. i+r], both ends
    included, clipped to the array. *)
Definition in_radius (r i j : nat) : Prop := (i - r <= j <= i + r)%nat.

(** ** Band power: [calculate_absolute_power], [calculate_relative_power] *)

(** A NumPy double as far as the model needs it: a finite value, an
    infinity with its sign, or NaN. *)
Inductive npfloat : Type :=
  | Fin (q : Q)
  | Inf (negative : bool)
  | NaN.

(** [a / b] on [np.float64]: a division by zero does not raise, it gives
    NaN for [0/0] and an infinity otherwise. *)
Definition np_div (a b : Q) : npfloat :=
  if Qeq_bool b 0 then
    if Qeq_bool a 0 then NaN else Inf (a <? 0)
  else Fin (a / b).

(** [np.logical_and(freqs >= band[0], freqs <= band[1])]. *)
Definition band_mask (freqs : list Q) (band : Q * Q) : list bool :=
  map (fun f => (fst band <=? f) && (f <=? snd band)) freqs.

(** Boolean-mask indexing [psd[idx_band]]: NumPy raises [IndexError] when
    the mask and the array differ in length. *)
Fixpoint masked (mask : list bool) (psd : list Q) : list Q :=
  match mask, psd with
  | b :: mask', v :: psd' => if b then v :: masked mask' psd' else masked mask' psd'
  | _, _ => []
  end.

Definition mask_index (psd : list Q) (mask : list bool) : outcome (list Q) :=
  if (length mask =? length psd)%nat then Ok (masked mask psd)
  else Raise IndexError.

(** [freqs[1] - freqs[0]]. *)
Definition freq_resolution (freqs : list Q) : outcome Q :=
  match freqs with
  | f0 :: f1 :: _ => Ok (f1 - f0)
  | _ => Raise IndexError
  end.

(** The sum of [y[k] + 4*y[k+1] + y[k+2]] over [k = 0, 2, 4, ...], the
    sum [scipy]'s [_basic_simpson] takes over its three strided slices. *)
Fixpoint simpson_sum (y : list Q) : Q :=
  match y with
  | y0 :: rest0 =>
      match rest0 with
      | y1 :: rest1 =>
          match rest1 with
          | y2 :: _ => (y0 + 4 * y1 + y2) + simpson_sum rest1
          | [] => 0
          end
      | [] => 0
      end
  | [] => 0
  end.

(** [scipy.integrate.simps(y, dx=dx)], the composite Simpson rule with the
    default [even='avg'].  An odd number of samples: Simpson's rule on all of
    them.  An even number: the mean of (Simpson on the first [N-1] samples
    plus a trapezoid on the last interval) and (Simpson on the last [N-1]
    samples plus a trapezoid on the first interval).  No sample at all: the
    even branch reads [y[-1]], an [IndexError].  (From scipy 1.11 on, an
    even number of four samples or more is integrated with a corrected last
    interval instead of the mean; the rule is the same for an odd number,
    for two samples and for none.) *)
Definition simps (y : list Q) (dx : Q) : outcome Q :=
  match y with
  | [] => Raise IndexError
  | _ =>
      if Nat.even (length y) then
        let val :=
          (1 # 2) * dx * (last y 0 + nth (length y - 2) y 0)
          + (1 # 2) * dx * (nth 1 y 0 + nth 0 y 0) in
        let result :=
          simpson_sum (removelast y) * (dx / 3)
          + simpson_sum (tl y) * (dx / 3) in
        Ok (result / 2 + val / 2)
      else Ok (simpson_sum y * (dx / 3))
  end.

Definition calculate_absolute_power
    (freqs psd : list Q) (band : Q * Q) : outcome Q :=
  let idx_band := band_mask freqs band in
  match freq_resolution freqs with
  | Raise e => Raise e
  | Ok freq_res =>
      match mask_index psd idx_band with
      | Raise e => Raise e
      | Ok selected => simps selected freq_res
      end
  end.

Definition calculate_relative_power
    (freqs psd : list Q) (band : Q * Q) : outcome npfloat :=
  let idx_band := band_mask freqs band in
  match freq_resolution freqs with
  | Raise e => Raise e
  | Ok freq_res =>
      match mask_index psd idx_band with
      | Raise e => Raise e
      | Ok selected =>
          match simps selected freq_res with
          | Raise e => Raise e
          | Ok band_power =>
              match simps psd freq_res with
              | Raise e => Raise e
              | Ok total_power => Ok (np_div band_power total_power)
              end
          end
      end
  end.

(** ** The generator [process_data] *)

(** What one pass of the [while True] loop of [process_data] meets, after
    [pull_chunk]: the two band powers that the filters, [welch] and the
    scorers computed from the chunk, the value of [self.locked] read at the
    [if not self.locked] test, and two fields that [main.py] reads when a
    command is yielded: whether [processor.safe_mode == "on"] and
    [self.mode]. *)
Record cycle : Type := mkCycle {
  c_alpha : Q;
  c_beta : Q;
  c_locked : bool;
  c_safe_mode_on : bool;
  c_mode : Z
}.

(** [timestamps] empty, or a chunk with data. *)
Inductive pull : Type :=
  | NoData
  | Data (c : cycle).

(** The value one pass yields, if it yields: the powers are scaled, and the
    classification is yielded only when [self.locked] is false; a locked
    pass prints ["Locked"] and yields nothing. *)
Definition process_data_step (self : handler) (p : pull) : option Z :=
  match p with
  | NoData => None
  | Data c =>
      let alpha_power := signal_scaling self "alpha" (c_alpha c) in
      let beta_power := signal_scaling self "beta" (c_beta c) in
      if negb (c_locked c)
      then Some (threshold_based_classification self alpha_power beta_power)
      else None
  end.

(** The commands the generator yields over a finite run of pulls. *)
Fixpoint process_data (self : handler) (pulls : list pull) : list Z :=
  match pulls with
  | [] => []
  | p :: rest =>
      match process_data_step self p with
      | Some command => command :: process_data self rest
      | None => process_data self rest
      end
  end.

(** ** The flight loop [processing_data] *)

(** Calls on the two devices.  [PullChunk] is the [pull_chunk] of
    [process_data]; [ClearBuffer] is one call of [clear_buffer], which
    drains the inlet; the others are methods of the controller. *)
Inductive call : Type :=
  | PullChunk
  | ClearBuffer
  | Takeoff
  | Land
  | EmergencyLand
  | PresetCommand
  | PresetCommand2
  | MoveForward (cm : Z).

Definition trace : Type := list call.

(** The environment of a run: for the calls made so far and the call being
    made, the exception it raises, if it raises. *)
Definition oracle : Type := trace -> call -> option pyexn.

Definition no_fault : oracle := fun _ _ => None.

(** Computations that extend the trace and return or raise. *)
Definition M (A : Type) : Type := trace -> trace * outcome A.

Definition ret {A : Type} (a : A) : M A := fun tr => (tr, Ok a).

Definition raise {A : Type} (e : pyexn) : M A := fun tr => (tr, Raise e).

Definition bind {A B : Type} (m : M A) (k : A -> M B) : M B :=
  fun tr =>
    match m tr with
    | (tr', Ok a) => k a tr'
    | (tr', Raise e) => (tr', Raise e)
    end.

Notation "x <- m ;; k" := (bind m (fun x => k))
  (at level 61, m at next level, right associativity).
Notation "m ;; k" := (bind m (fun _ => k))
  (at level 61, right associativity).

(** A call that never raises (the pulls of [process_data] are scripted by
    the run). *)
Definition record (c : call) : M unit := fun tr => (tr ++ [c], Ok tt).

(** A call on a device: it is recorded, then the oracle says whether it
    raises. *)
Definition invoke (faults : oracle) (c : call) : M unit :=
  fun tr =>
    match faults tr c with
    | Some e => (tr ++ [c], Raise e)
    | None => (tr ++ [c], Ok tt)
    end.

(** [try: body / except Exception as e: handler / finally: final].
    The handler runs for subclasses of [Exception] only; [final] always
    runs, and an exception it raises replaces the pending one. *)
Definition try_except_finally
    (body : M unit) (handler : pyexn -> M unit) (final : M unit) : M unit :=
  fun tr =>
    let '(tr1, r1) := body tr in
    let '(tr2, r2) :=
      match r1 with
      | Raise e => if is_Exception e then handler e tr1 else (tr1, Raise e)
      | Ok v => (tr1, Ok v)
      end in
    let '(tr3, r3) := final tr2 in
    match r3 with
    | Raise e => (tr3, Raise e)
    | Ok _ => (tr3, r2)
    end.

(** A run of the worker: [safe_mode] when the loop is entered, the pulls of
    the generator, and the exception that ends its [while True] loop. *)
Record session : Type := mkSession {
  s_safe_mode_on : bool;
  s_pulls : list pull;
  s_stop : pyexn
}.

Section FlightLoop.
Variable self : handler.
Variable faults : oracle.

(** The body of the [for] loop after [print(command)]; it returns the new
    value of [is_fly]. *)
Definition dispatch (mode command : Z) (is_fly : bool) : M bool :=
  if (command =? 1)%Z then
    if negb is_fly then
      invoke faults Takeoff ;;
      invoke faults ClearBuffer ;;
      ret true
    else
      invoke faults ClearBuffer ;;
      invoke faults Land ;;
      invoke faults ClearBuffer ;;
      ret false
  else if (command =? 2)%Z then
    if is_fly then
      if (mode =? 1)%Z then
        invoke faults ClearBuffer ;;
        invoke faults PresetCommand ;;
        invoke faults ClearBuffer ;;
        ret is_fly
      else if (mode =? 2)%Z then
        invoke faults ClearBuffer ;;
        invoke faults PresetCommand2 ;;
        invoke faults ClearBuffer ;;
        ret is_fly
      else
        invoke faults ClearBuffer ;;
        invoke faults (MoveForward 20%Z) ;;
        invoke faults ClearBuffer ;;
        ret is_fly
    else ret is_fly
  else ret is_fly.

(** The command the loop body sees: [-1] replaces the yielded command
    when [safe_mode] is ["on"]. *)
Definition seen_command (c : cycle) (command : Z) : Z :=
  if c_safe_mode_on c then (-1)%Z else command.

(** The passes of [for command in processor.process_data(): ...] over
    the pulls of the run: each pass pulls a chunk, and the loop body runs
    when the generator yields.  The result is the last value of
    [is_fly]. *)
Fixpoint iterate (pulls : list pull) (is_fly : bool) : M bool :=
  match pulls with
  | [] => ret is_fly
  | p :: rest =>
      record PullChunk ;;
      match p, process_data_step self p with
      | Data c, Some command =>
          is_fly' <- dispatch (c_mode c) (seen_command c command) is_fly ;;
          iterate rest is_fly'
      | _, _ => iterate rest is_fly
      end
  end.

(** The end of the generator: [stop] is raised inside its [while True]
    loop; a [KeyboardInterrupt] is caught there and ends the iteration,
    anything else leaves the generator and the [for] loop. *)
Definition generator_stop (stop : pyexn) : M unit :=
  match stop with
  | KeyboardInterrupt => ret tt
  | e => raise e
  end.

Definition for_loop (stop : pyexn) (pulls : list pull) (is_fly : bool) : M unit :=
  iterate pulls is_fly ;;
  generator_stop stop.

(** [processing_data], from the [try] on. *)
Definition processing_data (s : session) : M unit :=
  try_except_finally
    (if negb (s_safe_mode_on s)
     then for_loop (s_stop s) (s_pulls s) false
     else ret tt)
    (fun _ => invoke faults EmergencyLand)
    (invoke faults Land).
End FlightLoop.

(** The calls of the loop body when none of them raises. *)
Definition dispatch_script (mode command : Z) (is_fly : bool) : list call :=
  if (command =? 1)%Z then
    if negb is_fly then [Takeoff; ClearBuffer]
    else [ClearBuffer; Land; ClearBuffer]
  else if (command =? 2)%Z then
    if is_fly then
      if (mode =? 1)%Z then [ClearBuffer; PresetCommand; ClearBuffer]
      else if (mode =? 2)%Z then [ClearBuffer; PresetCommand2; ClearBuffer]
      else [ClearBuffer; MoveForward 20%Z; ClearBuffer]
    else []
  else [].

(** The calls and the result of a run. *)
Definition run (self : handler) (faults : oracle) (s : session)
    : trace * outcome unit :=
  processing_data self faults s [].

(** ** Properties of traces *)

(** Takeoff, land and the maneuvers. *)
Definition is_actuation (c : call) : bool :=
  match c with
  | Takeoff | Land | PresetCommand | PresetCommand2 | MoveForward _ => true
  | _ => false
  end.

Definition is_maneuver (c : call) : bool :=
  match c with
  | PresetCommand | PresetCommand2 | MoveForward _ => true
  | _ => false
  end.

Definition is_flush (c : option call) : bool :=
  match c with
  | Some ClearBuffer => true
  | _ => false
  end.

(** Every actuation of the trace has a [ClearBuffer] just before it and
    just after it; [prev] is the call before the trace. *)
Fixpoint flushed_both_sides (prev : option call) (tr : trace) : bool :=
  match tr with
  | [] => true
  | c :: rest =>
      (if is_actuation c then is_flush prev && is_flush (head rest) else true)
      && flushed_both_sides (Some c) rest
  end.

(** ** The value of [is_fly] and the shape of loop traces *)

(** The value of [is_fly] after the loop body: command 1 flips it, every
    other command keeps it. *)
Definition dispatch_is_fly (command : Z) (is_fly : bool) : bool :=
  if (command =? 1)%Z then negb is_fly else is_fly.

(** The calls of the [for] loop, pass by pass, from a value of [is_fly]: a
    pass pulls a chunk; when the generator yields, the loop body adds its
    script and moves [is_fly]; a call that raises cuts the script after
    that call and ends the loop. *)
Inductive loop_run : bool -> list call -> outcome bool -> Prop :=
  | loop_done (is_fly : bool) : loop_run is_fly [] (Ok is_fly)
  | loop_pass (mode command : Z) (is_fly : bool) (tr : list call) (r : outcome bool) :
      loop_run (dispatch_is_fly command is_fly) tr r ->
      loop_run is_fly (PullChunk :: dispatch_script mode command is_fly ++ tr) r
  | loop_idle (is_fly : bool) (tr : list call) (r : outcome bool) :
      loop_run is_fly tr r ->
      loop_run is_fly (PullChunk :: tr) r
  | loop_abort (mode command : Z) (is_fly : bool) (n : nat) (e : pyexn) :
      (n < length (dispatch_script mode command is_fly))%nat ->
      loop_run is_fly
        (PullChunk :: firstn (S n) (dispatch_script mode command is_fly))
        (Raise e).

(** The flight state a trace needs: a takeoff only from the ground, a
    landing or a maneuver only in the air. *)
Fixpoint flight_ok (flying : bool) (tr : list call) : bool :=
  match tr with
  | [] => true
  | Takeoff :: rest => negb flying && flight_ok true rest
  | Land :: rest => flying && flight_ok false rest
  | c :: rest =>
      if is_maneuver c then flying && flight_ok flying rest
      else flight_ok flying rest
  end.

(** Every landing and maneuver of the trace has a [ClearBuffer] just
    before it. *)
Fixpoint flushed_before (prev : option call) (tr : list call) : bool :=
  match tr with
  | [] => true
  | c :: rest =>
      (if is_maneuver c then is_flush prev
       else match c with Land => is_flush prev | _ => true end)
      && flushed_before (Some c) rest
  end.

(** Every actuation of the trace that is not its last call has a
    [ClearBuffer] just after it. *)
Fixpoint flushed_after (tr : list call) : bool :=
  match tr with
  | [] => true
  | c :: rest =>
      (if is_actuation c
       then match rest with [] => true | c' :: _ => is_flush (Some c') end
       else true)
      && flushed_after rest
  end.

(** ** The messages of [process_data] *)

(** What the generator emits: a yielded command or a printed line. *)
Inductive gen_event : Type :=
  | GYield (command : Z)
  | GPrint (line : string).

(** The passes of [process_data] with the flag [is_data_coming]: a pass
    without data prints the waiting line when the flag is set, and clears
    it; a pass with data yields or prints ["Locked"], then sets the flag. *)
Fixpoint process_data_events (self : handler) (pulls : list pull)
    (is_data_coming : bool) : list gen_event :=
  match pulls with
  | [] => []
  | p :: rest =>
      match p with
      | Data c =>
          (match process_data_step self p with
           | Some command => GYield command
           | None => GPrint "Locked"
           end) :: process_data_events self rest true
      | NoData =>
          if is_data_coming
          then GPrint "Waiting for LSL Stream ..." :: process_data_events self rest false
          else process_data_events self rest is_data_coming
      end
  end.

Definition is_waiting (ev : gen_event) : bool :=
  match ev with
  | GPrint line => String.eqb line "Waiting for LSL Stream ..."
  | GYield _ => false
  end.

(** No two waiting lines in a row; [after_data] says whether a line may
    come first. *)
Fixpoint waiting_once (after_data : bool) (events : list gen_event) : bool :=
  match events with
  | [] => true
  | ev :: rest =>
      if is_waiting ev then after_data && waiting_once false rest
      else waiting_once true rest
  end.

Definition yields (events : list gen_event) : list Z :=
  flat_map (fun ev => match ev with GYield c => [c] | GPrint _ => [] end) events.

(** ** The stop events: [on_close], [on_key_press] *)

(** [on_close] sets [safe_mode] to ["on"]. *)
Definition on_close (safe_mode : string) : string := "on"%string.

(** [on_key_press]: the escape key sets [safe_mode] to ["on"] and closes
    the figures, which fires [on_close]; any other key does nothing. *)
Definition on_key_press (safe_mode key : string) : string :=
  if String.eqb key "escape" then on_close "on"%string else safe_mode.

Inductive ui_event : Type :=
  | CloseEvent
  | KeyPressEvent (key : string).

Definition handle_event (safe_mode : string) (ev : ui_event) : string :=
  match ev with
  | CloseEvent => on_close safe_mode
  | KeyPressEvent key => on_key_press safe_mode key
  end.

Definition is_stop_event (ev : ui_event) : bool :=
  match ev with
  | CloseEvent => true
  | KeyPressEvent key => String.eqb key "escape"
  end.

(** ** [clear_buffer] on a queue of samples *)

(** The inlet as a queue of samples that does not grow while it is
    drained.  [pull_chunk(max_samples=n, timeout)] takes up to [n] samples
    from the front; with none queued it times out and returns an empty
    chunk. *)
Definition pull_chunk {A : Type} (max_samples : nat) (queue : list A)
    : list A * list A :=
  (firstn max_samples queue, skipn max_samples queue).

(** [while True: chunk = pull_chunk(...); if not chunk: break], with fuel;
    the result is the queue left and the number of pulls made. *)
Fixpoint clear_loop {A : Type} (fuel max_samples : nat) (queue : list A)
    (pulls : nat) : option (list A * nat) :=
  match fuel with
  | O => None
  | S fuel' =>
      let '(temp_chunk, queue') := pull_chunk max_samples queue in
      match temp_chunk with
      | [] => Some (queue', S pulls)
      | _ :: _ => clear_loop fuel' max_samples queue' (S pulls)
      end
  end.

(** [clear_buffer]: the queue length plus one is fuel enough. *)
Definition clear_buffer {A : Type} (self : handler) (queue : list A)
    : option (list A * nat) :=
  clear_loop (S (length queue)) (fs self) queue 0.

(** ** Band membership *)

Definition in_band (band : Q * Q) (f : Q) : bool :=
  (fst band <=? f) && (f <=? snd band).

(** Equality of NumPy doubles in the model: finite values as rationals. *)
Definition np_eq (a b : npfloat) : Prop :=
  match a, b with
  | Fin q, Fin q' => q == q'
  | Inf s, Inf s' => s = s'
  | NaN, NaN => True
  | _, _ => False
  end.

(** ** The classifier on doubles *)

(** Python's [a < b] on doubles: false as soon as one side is NaN. *)
Definition np_ltb (a b : npfloat) : bool :=
  match a, b with
  | NaN, _ | _, NaN => false
  | Fin x, Fin y => x <? y
  | Fin _, Inf negative => negb negative
  | Inf negative, Fin _ => negative
  | Inf negative, Inf negative' => negative && negb negative'
  end.

(** [threshold_based_classification] on scores that can be NaN or
    infinite, as the relative power of a chunk without power is; the
    thresholds are the finite values of the handler. *)
Definition classify_np (self : handler) (alpha_power beta_power : npfloat) : Z :=
  classify_with npfloat (fun a b => np_ltb b a) np_ltb
    (Fin (alpha_threshold self)) (Fin (beta_threshold self))
    alpha_power beta_power.

(** * Properties *)

(** ** Comparisons *)

Lemma Qltb_lt (a b : Q) : (a <? b) = true <-> a < b.
Proof.
  unfold Qltb. rewrite negb_true_iff.
  split; intro H.
  - apply Qnot_le_lt. intro Hle. apply Qle_bool_iff in Hle. congruence.
  - destruct (Qle_bool b a) eqn:E; [|reflexivity].
    apply Qle_bool_iff in E. exfalso. apply (Qlt_not_le _ _ H E).
Qed.

Lemma Qltb_ge (a b : Q) : (a <? b) = false <-> b <= a.
Proof.
  unfold Qltb. rewrite negb_false_iff. apply Qle_bool_iff.
Qed.

(** Case analysis on a comparison, with the fact it decides. *)
Ltac case_ltb a b :=
  let E := fresh "E" in
  destruct (Qltb a b) eqn:E;
  [apply Qltb_lt in E | apply Qltb_ge in E].

(** ** The classifier *)

Section ClassifierFacts.
Variable score : Type.
Variables gt lt : score -> score -> bool.
Variables alpha_thr beta_thr : score.

Let classify := classify_with score gt lt alpha_thr beta_thr.

Lemma classify_with_codes (a b : score) :
  (classify a b = 1 \/ classify a b = 2 \/ classify a b = 4)%Z.
Proof.
  unfold classify, classify_with.
  destruct (gt a alpha_thr); simpl; [now left|].
  destruct (gt b beta_thr && lt a alpha_thr); [now right; left | now right; right].
Qed.

Lemma classify_with_rule1 (a b : score) :
  gt a alpha_thr = true -> classify a b = 1%Z.
Proof.
  unfold classify, classify_with. now intros ->.
Qed.

Lemma classify_with_never_both (a b : score) : classify a b <> 3%Z.
Proof.
  destruct (classify_with_codes a b) as [H | [H | H]]; rewrite H; discriminate.
Qed.
End ClassifierFacts.

(** C1.  [threshold_based_classification] is a function of the two scores
    (so total and deterministic) whose value is always one of the codes
    1, 2, 3, 4; a score [alpha_power > alpha_threshold] gives code 1 whatever
    [beta_power] is; and code 3 is returned for no input. *)
Theorem classification_total_rule1_precedence :
  forall (self : handler) (alpha_power beta_power : Q),
    let code := threshold_based_classification self alpha_power beta_power in
    (code = ALPHA_DOMINANT \/ code = BETA_DOMINANT
     \/ code = BOTH_DOMINANT \/ code = NEITHER)
    /\ (alpha_threshold self < alpha_power -> code = ALPHA_DOMINANT)
    /\ code <> BOTH_DOMINANT.
Proof.
  intros self a b code. unfold code, threshold_based_classification.
  repeat split.
  - destruct (classify_with_codes Q (fun x y => y <? x) Qltb
                (alpha_threshold self) (beta_threshold self) a b)
      as [H | [H | H]]; rewrite H; auto.
  - intro Hgt. apply classify_with_rule1. now apply Qltb_lt.
  - apply classify_with_never_both.
Qed.

Lemma classification_total_rule1_precedence_witness :
  alpha_threshold default_handler < 8 # 10
  /\ threshold_based_classification default_handler (8 # 10) 25 = ALPHA_DOMINANT.
Proof.
  split.
  - reflexivity.
  - apply (proj1 (proj2 (classification_total_rule1_precedence
                           default_handler (8 # 10) 25))).
    reflexivity.
Defined.

(** The three end-to-end classifications of the specification. *)
Example classify_scenarios :
  threshold_based_classification default_handler (8 # 10) 5 = ALPHA_DOMINANT
  /\ threshold_based_classification default_handler (3 # 10) 25 = BETA_DOMINANT
  /\ threshold_based_classification default_handler (3 # 10) 5 = NEITHER.
Proof. repeat split. Qed.

(** ** Signal scaling *)

(** [signal_scaling] is the shared compression followed by the overwrite
    under the band's guard. *)
Lemma signal_scaling_unfold (self : handler) (type : string) (value : Q) :
  signal_scaling self type value =
  if clamp_guard self type then band_threshold self type + 1
  else compress (band_threshold self type) value.
Proof.
  unfold signal_scaling, clamp_guard, band_threshold, compress.
  destruct (String.eqb type "beta"); reflexivity.
Qed.

(** Away from [value = 4T] the compression is the specification's
    three-case formula. *)
Lemma compress_spec_scale (T v : Q) :
  ~ v == 4 * T -> compress T v = spec_scale T v.
Proof.
  intro Hne. unfold compress, spec_scale.
  case_ltb (2 * T) v; case_ltb v (4 * T); case_ltb (4 * T) v;
    simpl; try reflexivity; exfalso; lra.
Qed.

(** At [value = 4T] the compression leaves the value as it is. *)
Lemma compress_at_4T (T : Q) : compress T (4 * T) = 4 * T.
Proof.
  unfold compress.
  case_ltb (2 * T) (4 * T); case_ltb (4 * T) (4 * T); simpl;
    try reflexivity; exfalso; lra.
Qed.

(** C5.  At the input [value = 80] of the beta band with the default
    threshold 20, so [value = 4T] and no clamp, [signal_scaling] returns 80,
    where the three-case formula of the claim gives [0.5 * 80 + 1 = 41]. *)
Theorem signal_scaling_misses_4T :
  signal_scaling default_handler "beta" 80 == 80
  /\ spec_scale (beta_threshold default_handler) 80 == 41
  /\ clamp_guard default_handler "beta" = false.
Proof. repeat split. Qed.

(** C10.  Under its guard the clamp overwrites: the result is the
    threshold plus one for every input, for the beta band when
    [beta_threshold > 50] and for the alpha band when [alpha_threshold > 1]. *)
Theorem signal_scaling_clamp_overwrites :
  forall (self : handler),
    (50 < beta_threshold self ->
     forall value, signal_scaling self "beta" value = beta_threshold self + 1)
    /\ (1 < alpha_threshold self ->
        forall value, signal_scaling self "alpha" value = alpha_threshold self + 1).
Proof.
  intro self. split; intros Hguard value;
    rewrite signal_scaling_unfold; unfold clamp_guard, band_threshold; simpl;
    apply Qltb_lt in Hguard; now rewrite Hguard.
Qed.

Lemma signal_scaling_clamp_overwrites_witness :
  let self := {| alpha_threshold := 2; beta_threshold := 60; fs := 125 |} in
  (50 < beta_threshold self /\ signal_scaling self "beta" 3 = 60 + 1)
  /\ (1 < alpha_threshold self /\ signal_scaling self "alpha" (1 # 2) = 2 + 1).
Proof.
  intro self. split; split.
  - reflexivity.
  - apply (proj1 (signal_scaling_clamp_overwrites self)). reflexivity.
  - reflexivity.
  - apply (proj2 (signal_scaling_clamp_overwrites self)). reflexivity.
Defined.

(** C6, as stated, fails: with the default beta threshold the inputs
    [40 <= 41] are scaled to [40] and [21.5]. *)
Lemma signal_scaling_not_monotone :
  40 <= 41
  /\ ~ signal_scaling default_handler "beta" 40
       <= signal_scaling default_handler "beta" 41.
Proof.
  split.
  - discriminate.
  - intro H. vm_compute in H. apply H. reflexivity.
Qed.

(** C6, amended.  For a fixed band and fixed thresholds, [signal_scaling]
    is monotone non-decreasing on inputs that take the same branch of the
    compression. *)
Theorem signal_scaling_monotone_on_segment :
  forall (self : handler) (type : string) (v1 v2 : Q),
    segment_of (band_threshold self type) v1
      = segment_of (band_threshold self type) v2 ->
    v1 <= v2 ->
    signal_scaling self type v1 <= signal_scaling self type v2.
Proof.
  intros self type v1 v2 Hseg Hle.
  rewrite !signal_scaling_unfold.
  destruct (clamp_guard self type); [apply Qle_refl|].
  revert Hseg. unfold segment_of, compress.
  set (T := band_threshold self type).
  destruct ((2 * T <? v1) && (v1 <? 4 * T)), ((2 * T <? v2) && (v2 <? 4 * T));
    destruct (4 * T <? v1), (4 * T <? v2);
    intro Hseg; try discriminate Hseg; lra.
Qed.

Lemma signal_scaling_monotone_on_segment_witness :
  segment_of (band_threshold default_handler "beta") 50
    = segment_of (band_threshold default_handler "beta") 60
  /\ 50 <= 60
  /\ signal_scaling default_handler "beta" 50
     <= signal_scaling default_handler "beta" 60.
Proof.
  split; [reflexivity|]. split; [discriminate|].
  apply (signal_scaling_monotone_on_segment default_handler "beta" 50 60).
  - reflexivity.
  - discriminate.
Defined.

(** ** Peak selection *)

(** *** The look-ahead loop *)

Lemma look_ahead_ge (fuel : nat) (x : list Q) (xi : Q) (i_ahead i_max : nat) :
  (i_ahead <= look_ahead fuel x xi i_ahead i_max)%nat.
Proof.
  revert i_ahead. induction fuel as [|fuel IH]; intro i_ahead; simpl; [lia|].
  destruct ((i_ahead <? i_max)%nat && Qeq_bool (nth i_ahead x 0) xi); [|lia].
  specialize (IH (S i_ahead)). lia.
Qed.

Lemma look_ahead_le (fuel : nat) (x : list Q) (xi : Q) (i_ahead i_max : nat) :
  (i_ahead <= i_max -> look_ahead fuel x xi i_ahead i_max <= i_max)%nat.
Proof.
  revert i_ahead. induction fuel as [|fuel IH]; intros i_ahead Hle; simpl; [lia|].
  destruct (i_ahead <? i_max)%nat eqn:E; simpl; [|lia].
  apply Nat.ltb_lt in E.
  destruct (Qeq_bool (nth i_ahead x 0) xi); [|lia].
  apply IH. lia.
Qed.

(** The samples the look-ahead skips are equal to [xi]. *)
Lemma look_ahead_plateau (fuel : nat) (x : list Q) (xi : Q) (i_ahead i_max : nat) :
  forall k, (i_ahead <= k < look_ahead fuel x xi i_ahead i_max)%nat ->
            nth k x 0 == xi.
Proof.
  revert i_ahead. induction fuel as [|fuel IH]; intros i_ahead k Hk; simpl in Hk; [lia|].
  destruct (i_ahead <? i_max)%nat eqn:E; simpl in Hk; [|lia].
  destruct (Qeq_bool (nth i_ahead x 0) xi) eqn:Eq; [|lia].
  destruct (Nat.eq_dec k i_ahead) as [->|Hne].
  - now apply Qeq_bool_iff.
  - apply (IH (S i_ahead)). lia.
Qed.

(** With the fuel [find_peaks] gives it, the look-ahead stops where the
    [while] loop of the source stops: its condition is false there. *)
Lemma look_ahead_exit (fuel : nat) (x : list Q) (xi : Q) (i_ahead i_max : nat) :
  (i_max - i_ahead <= fuel)%nat ->
  let r := look_ahead fuel x xi i_ahead i_max in
  (r <? i_max)%nat && Qeq_bool (nth r x 0) xi = false.
Proof.
  revert i_ahead. induction fuel as [|fuel IH]; intros i_ahead Hfuel; simpl.
  - replace (i_ahead <? i_max)%nat with false; [reflexivity|].
    symmetry. apply Nat.ltb_ge. lia.
  - destruct ((i_ahead <? i_max)%nat && Qeq_bool (nth i_ahead x 0) xi) eqn:E.
    + apply IH. lia.
    + exact E.
Qed.

(** More fuel does not change the look-ahead. *)
Lemma look_ahead_fuel (fuel fuel' : nat) (x : list Q) (xi : Q) (i_ahead i_max : nat) :
  (i_max - i_ahead <= fuel)%nat -> (i_max - i_ahead <= fuel')%nat ->
  look_ahead fuel x xi i_ahead i_max = look_ahead fuel' x xi i_ahead i_max.
Proof.
  revert fuel' i_ahead.
  induction fuel as [|fuel IH]; intros [|fuel'] i_ahead H H'; simpl; try reflexivity.
  - replace (i_ahead <? i_max)%nat with false; [reflexivity|].
    symmetry. apply Nat.ltb_ge. lia.
  - replace (i_ahead <? i_max)%nat with false; [reflexivity|].
    symmetry. apply Nat.ltb_ge. lia.
  - destruct ((i_ahead <? i_max)%nat && Qeq_bool (nth i_ahead x 0) xi); [|reflexivity].
    apply IH; lia.
Qed.

(** *** The scan for local maxima *)

(** The scan is total: past [i_max - i] units, fuel is never used up. *)
Lemma local_maxima_fuel (fuel fuel' : nat) (x : list Q) (i i_max : nat) :
  (i_max - i <= fuel)%nat -> (i_max - i <= fuel')%nat ->
  local_maxima_loop fuel x i i_max = local_maxima_loop fuel' x i i_max.
Proof.
  revert fuel' i.
  induction fuel as [|fuel IH]; intros [|fuel'] i H H'; simpl; try reflexivity.
  - replace (i <? i_max)%nat with false; [reflexivity|].
    symmetry. apply Nat.ltb_ge. lia.
  - replace (i <? i_max)%nat with false; [reflexivity|].
    symmetry. apply Nat.ltb_ge. lia.
  - destruct (i <? i_max)%nat eqn:E; [|reflexivity].
    apply Nat.ltb_lt in E.
    pose proof (look_ahead_ge (i_max - i) x (nth i x 0) (S i) i_max) as Hge.
    destruct (nth (i - 1) x 0 <? nth i x 0); [|apply IH; lia].
    destruct (nth (look_ahead (i_max - i) x (nth i x 0) (S i) i_max) x 0 <? nth i x 0).
    + f_equal. apply IH; lia.
    + apply IH; lia.
Qed.

Lemma local_maxima_loop_spec (fuel : nat) (x : list Q) (i i_max : nat) :
  (1 <= i)%nat -> i_max = (length x - 1)%nat ->
  let peaks := local_maxima_loop fuel x i i_max in
  StronglySorted lt peaks
  /\ Forall (fun p => (i <= p < i_max)%nat) peaks
  /\ Forall (local_peak x) peaks.
Proof.
  revert i. induction fuel as [|fuel IH]; intros i Hi Hmax; cbn [local_maxima_loop].
  - repeat split; constructor.
  - destruct (i <? i_max)%nat eqn:E; [|repeat split; constructor].
    apply Nat.ltb_lt in E.
    assert (Hweak : forall j, (i <= j)%nat ->
      let peaks := local_maxima_loop fuel x j i_max in
      StronglySorted lt peaks
      /\ Forall (fun p => (i <= p < i_max)%nat) peaks
      /\ Forall (local_peak x) peaks).
    { intros j Hj. destruct (IH j) as (Hs & Hb & Hp); [lia | assumption |].
      repeat split; try assumption.
      eapply Forall_impl; [|exact Hb]. cbv beta. intros; lia. }
    case_ltb (nth (i - 1) x 0) (nth i x 0); [|apply Hweak; lia].
    set (i_ahead := look_ahead (i_max - i) x (nth i x 0) (S i) i_max).
    pose proof (look_ahead_ge (i_max - i) x (nth i x 0) (S i) i_max) as Hge.
    pose proof (look_ahead_le (i_max - i) x (nth i x 0) (S i) i_max) as Hle.
    pose proof (look_ahead_plateau (i_max - i) x (nth i x 0) (S i) i_max) as Hpl.
    fold i_ahead in Hge, Hle, Hpl. cbv zeta. fold i_ahead.
    case_ltb (nth i_ahead x 0) (nth i x 0); [|apply Hweak; lia].
    destruct (IH (S i_ahead)) as (Hs & Hb & Hp); [lia | assumption |].
    assert (Hmid : (i <= (i + (i_ahead - 1)) / 2 <= i_ahead - 1)%nat).
    { split.
      - apply Nat.div_le_lower_bound; lia.
      - apply Nat.Div0.div_le_upper_bound. lia. }
    repeat split.
    + constructor; [assumption|].
      eapply Forall_impl; [|exact Hb]. cbv beta. intros; lia.
    + constructor; [lia|].
      eapply Forall_impl; [|exact Hb]. cbv beta. intros; lia.
    + constructor; [|assumption].
      exists i, (i_ahead - 1)%nat. split; [|reflexivity].
      unfold plateau_peak. repeat split; try lia; try assumption.
      * intros k Hk. destruct (Nat.eq_dec k i) as [->|Hne]; [reflexivity|].
        apply Hpl. lia.
      * replace (i_ahead - 1 + 1)%nat with i_ahead by lia. assumption.
Qed.

(** The peaks of [find_peaks] are strictly increasing interior indices, each
    a local peak. *)
Lemma find_peaks_spec (x : list Q) :
  StronglySorted lt (find_peaks x)
  /\ Forall (fun p => (1 <= p < length x - 1)%nat) (find_peaks x)
  /\ Forall (local_peak x) (find_peaks x).
Proof.
  unfold find_peaks. apply local_maxima_loop_spec; [lia | reflexivity].
Qed.

(** *** The suppression loop *)

Lemma fold_max_upper (rest : list Q) (v : Q) :
  let m := fold_left (fun m w => if m <? w then w else m) rest v in
  v <= m /\ Forall (fun w => w <= m) rest.
Proof.
  revert v. induction rest as [|w rest IH]; intro v; simpl.
  - split; [apply Qle_refl | constructor].
  - destruct (IH (if v <? w then w else v)) as [Hv Hrest].
    case_ltb v w; (split; [|constructor; [|assumption]]); lra.
Qed.

Lemma np_max_upper (l : list Q) (m : Q) :
  np_max l = Ok m -> Forall (fun v => v <= m) l.
Proof.
  destruct l as [|v rest]; simpl; intro H; [discriminate|].
  injection H as <-.
  destruct (fold_max_upper rest v) as [Hv Hrest].
  constructor; assumption.
Qed.

Lemma slice_nth {A : Type} (l : list A) (d : A) (start stop j : nat) :
  (start <= j < stop)%nat -> (j < length l)%nat ->
  In (nth j l d) (slice l start stop).
Proof.
  unfold slice. revert start stop j.
  induction l as [|a l IH]; intros start stop j Hj Hlen; simpl in Hlen; [lia|].
  destruct start as [|start].
  - rewrite Nat.sub_0_r. simpl skipn.
    destruct stop as [|stop]; [lia|]. simpl firstn.
    destruct j as [|j]; [now left|].
    right. specialize (IH 0%nat stop j).
    rewrite Nat.sub_0_r in IH. simpl skipn in IH.
    destruct l; [simpl in Hlen; lia|].
    apply IH; simpl in *; lia.
  - destruct j as [|j]; [lia|].
    destruct stop as [|stop]; [lia|].
    simpl skipn. replace (S stop - S start)%nat with (stop - start)%nat by lia.
    simpl nth. apply IH; lia.
Qed.

(** A kept peak is at least every sample of the half-open window
    [peak - window_size .. peak + window_size - 1]. *)
Lemma keeps_window (psd : list Q) (window_size peak : nat) :
  keeps psd window_size peak = true ->
  forall j, (peak - window_size <= j < peak + window_size)%nat ->
            (j < length psd)%nat ->
            nth j psd 0 <= nth peak psd 0.
Proof.
  unfold keeps. intros H j Hj Hlen.
  destruct (np_max _) as [m|e] eqn:Emax; [|discriminate].
  apply Qeq_bool_iff in H. rewrite H.
  apply np_max_upper in Emax.
  rewrite Forall_forall in Emax. apply Emax.
  apply slice_nth; lia.
Qed.

Lemma nms_loop_filter (psd : list Q) (window_size : nat) (peaks selected out : list nat) :
  nms_loop psd window_size peaks selected = Ok out ->
  out = selected ++ filter (keeps psd window_size) peaks.
Proof.
  revert selected. induction peaks as [|peak rest IH]; intros selected H; simpl in *.
  - injection H as <-. now rewrite app_nil_r.
  - unfold keeps at 1.
    destruct (np_max _) as [m|e]; [|discriminate].
    destruct (Qeq_bool (nth peak psd 0) m).
    + apply IH in H. rewrite H, <- app_assoc. reflexivity.
    + now apply IH.
Qed.

(** The loop raises only on an empty window, which a peak inside the array
    and a positive [window_size] exclude. *)
Lemma nms_loop_total (psd : list Q) (window_size : nat) (peaks selected : list nat) :
  (1 <= window_size)%nat ->
  Forall (fun p => (p < length psd)%nat) peaks ->
  exists out, nms_loop psd window_size peaks selected = Ok out.
Proof.
  intros Hw. revert selected.
  induction peaks as [|peak rest IH]; intros selected Hin; simpl.
  - now exists selected.
  - inversion Hin as [|? ? Hpeak Hrest]; subst.
    destruct (np_max _) as [m|e] eqn:Emax.
    + destruct (Qeq_bool (nth peak psd 0) m); now apply IH.
    + exfalso.
      assert (Hmem : In (nth peak psd 0)
                       (slice psd (Nat.max 0 (peak - window_size))
                                  (Nat.min (length psd) (peak + window_size)))).
      { apply slice_nth; lia. }
      destruct (slice psd _ _); [contradiction | discriminate].
Qed.

Lemma StronglySorted_filter {A : Type} (R : A -> A -> Prop) (f : A -> bool) (l : list A) :
  StronglySorted R l -> StronglySorted R (filter f l).
Proof.
  induction 1 as [|a l Hs IH Hall]; simpl; [constructor|].
  destruct (f a); [|assumption].
  constructor; [assumption|].
  rewrite Forall_forall in *. intros b Hb.
  apply Hall. apply filter_In in Hb. tauto.
Qed.

Lemma Forall_filter {A : Type} (P : A -> Prop) (f : A -> bool) (l : list A) :
  Forall P l -> Forall P (filter f l).
Proof.
  rewrite !Forall_forall. intros H a Ha. apply H.
  apply filter_In in Ha. tauto.
Qed.

(** With a positive [window_size] the selection returns. *)
Lemma non_maximum_suppression_total (psd : list Q) (window_size : nat) :
  (1 <= window_size)%nat ->
  exists out, non_maximum_suppression psd window_size = Ok out.
Proof.
  intro Hw. apply nms_loop_total; [assumption|].
  destruct (find_peaks_spec psd) as (_ & Hb & _).
  eapply Forall_impl; [|exact Hb]. cbv beta. intros; lia.
Qed.

(** What the selection does guarantee: the indices it returns are strictly
    increasing, each is a local peak, and each is at least every sample of
    the half-open window [i - r .. i + r - 1]. *)
Lemma non_maximum_suppression_sound (psd : list Q) (window_size : nat) (out : list nat) :
  non_maximum_suppression psd window_size = Ok out ->
  StronglySorted lt out
  /\ Forall (local_peak psd) out
  /\ forall i, In i out ->
       forall j, (i - window_size <= j < i + window_size)%nat ->
                 (j < length psd)%nat ->
                 nth j psd 0 <= nth i psd 0.
Proof.
  intro H. apply nms_loop_filter in H. simpl in H. subst out.
  destruct (find_peaks_spec psd) as (Hs & _ & Hp).
  repeat split.
  - now apply StronglySorted_filter.
  - now apply Forall_filter.
  - intros i Hi. apply filter_In in Hi. destruct Hi as [_ Hk].
    now apply keeps_window.
Qed.

(** C7.  On the spectrum [0, 1, 0, 0, 0, 0, 5, 0] with radius 5 the
    selection returns index 1, whose power 1 is less than the power 5 at
    index 6, and 6 lies in the window [1-5 .. 1+5]: the slice
    [psd[start:end]] stops one short of [i + r]. *)
Theorem nms_window_misses_right_end :
  let psd := [0; 1; 0; 0; 0; 0; 5; 0] in
  non_maximum_suppression psd 5 = Ok [1; 6]%nat
  /\ in_radius 5 1 6
  /\ nth 1 psd 0 < nth 6 psd 0.
Proof.
  repeat split; unfold in_radius; simpl; lia.
Qed.

(** ** Band power *)

Lemma simpson_sum_nonneg_aux (y : list Q) :
  Forall (fun v => 0 <= v) y ->
  0 <= simpson_sum y /\ (forall a, 0 <= a -> 0 <= simpson_sum (a :: y)).
Proof.
  induction 1 as [|b y Hb Hy [IH1 IH2]].
  - split; [|intros a _]; simpl; apply Qle_refl.
  - split; [now apply IH2|].
    intros a Ha. destruct y as [|c y].
    + simpl. apply Qle_refl.
    + inversion Hy as [|? ? Hc _]; subst.
      change (0 <= (a + 4 * b + c) + simpson_sum (c :: y)). lra.
Qed.

Lemma simpson_sum_nonneg (y : list Q) :
  Forall (fun v => 0 <= v) y -> 0 <= simpson_sum y.
Proof. intro H. now apply simpson_sum_nonneg_aux. Qed.

Lemma Forall_removelast {A : Type} (P : A -> Prop) (l : list A) :
  Forall P l -> Forall P (removelast l).
Proof.
  induction 1 as [|a l Ha Hl IH]; simpl; [constructor|].
  destruct l; [constructor|]. constructor; assumption.
Qed.

Lemma Forall_tl {A : Type} (P : A -> Prop) (l : list A) :
  Forall P l -> Forall P (tl l).
Proof. destruct 1; simpl; [constructor | assumption]. Qed.

Lemma Forall_last {A : Type} (P : A -> Prop) (l : list A) (d : A) :
  P d -> Forall P l -> P (last l d).
Proof.
  intros Hd. induction 1 as [|a l Ha Hl IH]; simpl; [assumption|].
  destruct l; assumption.
Qed.

Lemma Forall_nth_default {A : Type} (P : A -> Prop) (l : list A) (d : A) (n : nat) :
  P d -> Forall P l -> P (nth n l d).
Proof.
  intros Hd Hl. destruct (nth_in_or_default n l d) as [Hin | ->]; [|assumption].
  rewrite Forall_forall in Hl. now apply Hl.
Qed.

(** Simpson's rule has positive weights: on samples that are not negative,
    with a step that is not negative, the integral is not negative. *)
Lemma simps_nonneg (y : list Q) (dx : Q) :
  y <> [] -> 0 <= dx -> Forall (fun v => 0 <= v) y ->
  exists p, simps y dx = Ok p /\ 0 <= p.
Proof.
  intros Hne Hdx Hy. unfold simps.
  destruct y as [|y0 y']; [contradiction|].
  set (y := y0 :: y') in *.
  assert (Hnn : forall a, 0 <= a -> 0 <= a * (dx / 3)).
  { intros a Ha. apply Qmult_le_0_compat; [assumption|].
    apply Qle_shift_div_l; [reflexivity | lra]. }
  destruct (Nat.even (length y)).
  - eexists. split; [reflexivity|].
    pose proof (Hnn _ (simpson_sum_nonneg _ (Forall_removelast _ _ Hy))) as H1.
    pose proof (Hnn _ (simpson_sum_nonneg _ (Forall_tl _ _ Hy))) as H2.
    pose proof (Forall_last (fun v => 0 <= v) y 0 (Qle_refl 0) Hy) as H3.
    pose proof (Forall_nth_default (fun v => 0 <= v) y 0 (length y - 2) (Qle_refl 0) Hy) as H4.
    pose proof (Forall_nth_default (fun v => 0 <= v) y 0 1 (Qle_refl 0) Hy) as H5.
    pose proof (Forall_nth_default (fun v => 0 <= v) y 0 0 (Qle_refl 0) Hy) as H6.
    cbv beta in H3, H4, H5, H6.
    assert (Ha : 0 <= (1 # 2) * dx * (last y 0 + nth (length y - 2) y 0)).
    { apply Qmult_le_0_compat; lra. }
    assert (Hb : 0 <= (1 # 2) * dx * (nth 1 y 0 + nth 0 y 0)).
    { apply Qmult_le_0_compat; lra. }
    revert H1 H2 Ha Hb.
    generalize (simpson_sum (removelast y) * (dx / 3)),
               (simpson_sum (tl y) * (dx / 3)),
               ((1 # 2) * dx * (last y 0 + nth (length y - 2) y 0)),
               ((1 # 2) * dx * (nth 1 y 0 + nth 0 y 0)).
    intros. unfold Qdiv. change (/ 2) with (1 # 2). lra.
  - eexists. split; [reflexivity|].
    apply Hnn. now apply simpson_sum_nonneg.
Qed.

Lemma masked_Forall (P : Q -> Prop) (mask : list bool) (psd : list Q) :
  Forall P psd -> Forall P (masked mask psd).
Proof.
  intro H. revert mask. induction H as [|v psd Hv Hpsd IH]; intros [|b mask]; simpl;
    try constructor.
  destruct b; [constructor; [assumption | apply IH] | apply IH].
Qed.

Lemma band_mask_length (freqs : list Q) (band : Q * Q) :
  length (band_mask freqs band) = length freqs.
Proof. apply length_map. Qed.

(** No bin in the band: the mask selects nothing. *)
Lemma masked_no_bin (freqs psd : list Q) (band : Q * Q) :
  (forall f, In f freqs -> ~ (fst band <= f /\ f <= snd band)) ->
  masked (band_mask freqs band) psd = [].
Proof.
  revert psd. induction freqs as [|f freqs IH]; intros psd H; simpl; [reflexivity|].
  destruct psd as [|v psd]; [reflexivity|].
  destruct ((fst band <=? f) && (f <=? snd band)) eqn:E.
  - exfalso. apply andb_true_iff in E. destruct E as [E1 E2].
    apply Qle_bool_iff in E1. apply Qle_bool_iff in E2.
    apply (H f); [now left | split; assumption].
  - apply IH. intros g Hg. apply H. now right.
Qed.

(** Every bin in the band: the mask selects the whole spectrum. *)
Lemma masked_all_bins (freqs psd : list Q) (band : Q * Q) :
  length freqs = length psd ->
  (forall f, In f freqs -> fst band <= f /\ f <= snd band) ->
  masked (band_mask freqs band) psd = psd.
Proof.
  revert psd. induction freqs as [|f freqs IH]; intros [|v psd] Hlen H;
    simpl in *; try reflexivity; try discriminate.
  destruct (H f (or_introl eq_refl)) as [H1 H2].
  apply Qle_bool_iff in H1. apply Qle_bool_iff in H2.
  rewrite H1, H2. simpl. f_equal. apply IH; [lia|].
  intros g Hg. apply H. now right.
Qed.

(** A bin in the band: the mask selects something. *)
Lemma masked_some_bin (freqs psd : list Q) (band : Q * Q) :
  length freqs = length psd ->
  (exists f, In f freqs /\ fst band <= f /\ f <= snd band) ->
  masked (band_mask freqs band) psd <> [].
Proof.
  revert psd. induction freqs as [|f freqs IH]; intros [|v psd] Hlen (g & Hg & H1 & H2);
    simpl in *; try contradiction; try discriminate.
  destruct ((fst band <=? f) && (f <=? snd band)) eqn:E; [discriminate|].
  apply IH; [lia|]. exists g. repeat split; try assumption.
  destruct Hg as [-> | Hg]; [|assumption].
  exfalso. apply Qle_bool_iff in H1. apply Qle_bool_iff in H2.
  rewrite H1, H2 in E. discriminate.
Qed.

Lemma mask_index_band (freqs psd : list Q) (band : Q * Q) :
  length freqs = length psd ->
  mask_index psd (band_mask freqs band) = Ok (masked (band_mask freqs band) psd).
Proof.
  intro Hlen. unfold mask_index.
  rewrite band_mask_length, Hlen, Nat.eqb_refl. reflexivity.
Qed.

Lemma simps_returns (y : list Q) (dx : Q) :
  y <> [] -> exists p, simps y dx = Ok p.
Proof.
  intro Hne. unfold simps. destruct y as [|y0 y']; [contradiction|].
  destruct (Nat.even _); eexists; reflexivity.
Qed.

Lemma np_div_by_zero (a b : Q) :
  b == 0 -> np_div a b = NaN \/ exists s, np_div a b = Inf s.
Proof.
  intro Hb. unfold np_div.
  apply Qeq_bool_iff in Hb. rewrite Hb.
  destruct (Qeq_bool a 0); [now left | right; eexists; reflexivity].
Qed.

Lemma np_div_self (a : Q) :
  ~ a == 0 -> exists r, np_div a a = Fin r /\ r == 1.
Proof.
  intro Ha. unfold np_div.
  destruct (Qeq_bool a 0) eqn:E.
  - apply Qeq_bool_iff in E. contradiction.
  - exists (a / a). split; [reflexivity|]. now field.
Qed.

(** C8, as stated, fails.  On four bins with no power, a band that holds no
    bin makes the scorer raise the [IndexError] of the integration routine,
    not a [DegenerateBandError]; and with the band over all bins the total
    power is zero and the relative power is returned as NaN: nothing is
    raised. *)
Lemma band_power_errors_counterexample :
  let freqs := [0; 1; 2; 3] in
  let psd := [0; 0; 0; 0] in
  calculate_absolute_power freqs psd (8, 12) = Raise IndexError
  /\ calculate_absolute_power freqs psd (8, 12) <> Raise DegenerateBandError
  /\ (exists total, simps psd 1 = Ok total /\ total == 0)
  /\ calculate_relative_power freqs psd (0, 3) = Ok NaN
  /\ calculate_relative_power freqs psd (0, 3) <> Raise ZeroTotalPowerError.
Proof.
  repeat split; try discriminate.
  eexists. split; reflexivity.
Qed.

(** C8, amended.  On a spectrum of at least two bins, with as many power
    values as frequencies: when no bin falls in the band, both scorers fail
    with the [IndexError] of the integration over an empty selection; when a
    bin falls in the band and the power over the whole spectrum integrates to
    zero, the relative power does not fail, it is NaN or an infinity. *)
Theorem band_power_failures :
  forall (freqs psd : list Q) (band : Q * Q) (dx : Q),
    length freqs = length psd ->
    freq_resolution freqs = Ok dx ->
    ((forall f, In f freqs -> ~ (fst band <= f /\ f <= snd band)) ->
     calculate_absolute_power freqs psd band = Raise IndexError
     /\ calculate_relative_power freqs psd band = Raise IndexError)
    /\ ((exists f, In f freqs /\ fst band <= f /\ f <= snd band) ->
        forall total, simps psd dx = Ok total -> total == 0 ->
        exists v, calculate_relative_power freqs psd band = Ok v
                  /\ (v = NaN \/ exists s, v = Inf s)).
Proof.
  intros freqs psd band dx Hlen Hres.
  unfold calculate_absolute_power, calculate_relative_power.
  rewrite Hres, (mask_index_band _ _ _ Hlen).
  split.
  - intro Hnone. rewrite (masked_no_bin _ _ _ Hnone). split; reflexivity.
  - intros Hsome total Htotal Hzero.
    destruct (simps_returns _ dx (masked_some_bin _ _ _ Hlen Hsome)) as [p Hp].
    rewrite Hp, Htotal. eexists. split; [reflexivity|].
    now apply np_div_by_zero.
Qed.

Lemma band_power_failures_witness :
  let freqs := [0; 1; 2; 3] in
  let psd := [0; 0; 0; 0] in
  calculate_absolute_power freqs psd (8, 12) = Raise IndexError
  /\ exists v, calculate_relative_power freqs psd (1, 2) = Ok v
               /\ (v = NaN \/ exists s, v = Inf s).
Proof.
  intros freqs psd.
  assert (Hlen : length freqs = length psd) by reflexivity.
  assert (Hres : freq_resolution freqs = Ok (1 - 0)) by reflexivity.
  split.
  - apply (proj1 (band_power_failures freqs psd (8, 12) (1 - 0) Hlen Hres)).
    intros f Hf [H1 H2]. simpl in Hf, H1, H2.
    destruct Hf as [<- | [<- | [<- | [<- | []]]]]; lra.
  - destruct (simps_returns psd (1 - 0)) as [total Htotal]; [discriminate|].
    apply (proj2 (band_power_failures freqs psd (1, 2) (1 - 0) Hlen Hres))
      with (total := total).
    + exists 1. simpl. split; [tauto | split; lra].
    + exact Htotal.
    + vm_compute in Htotal. injection Htotal as <-. reflexivity.
Defined.

(** C9, as stated, fails.  A spectrum with no power is not negative, the
    band 8..12 covers each of its bins, and the relative power is NaN, not 1.
    With frequencies listed downwards the step is negative and so is the
    absolute power; and a band that holds no bin has no power at all, the
    scorer raises. *)
Lemma relative_power_zero_spectrum :
  let freqs := [8; 9; 10; 11; 12] in
  let psd := [0; 0; 0; 0; 0] in
  Forall (fun v => 0 <= v) psd
  /\ (forall f, In f freqs -> 8 <= f /\ f <= 12)
  /\ calculate_relative_power freqs psd (8, 12) = Ok NaN
  /\ (exists p, calculate_absolute_power [3; 2; 1] [1; 1; 1] (1, 3) = Ok p /\ p < 0)
  /\ calculate_absolute_power freqs [1; 1; 1; 1; 1] (15, 30) = Raise IndexError.
Proof.
  intros freqs psd. repeat split.
  - repeat constructor; discriminate.
  - simpl in H. destruct H as [<- | [<- | [<- | [<- | [<- | []]]]]]; discriminate.
  - simpl in H. destruct H as [<- | [<- | [<- | [<- | [<- | []]]]]]; discriminate.
  - eexists. split; reflexivity.
Qed.

(** C9, amended.  On a spectrum of at least two bins, with as many power
    values as frequencies, a frequency step that is not negative and power
    values that are not negative: the absolute power of a band that holds a
    bin is not negative; and when the band covers every bin and the total
    power is not zero, the relative power is exactly 1. *)
Theorem band_power_nonneg_and_full_band :
  forall (freqs psd : list Q) (band : Q * Q) (dx : Q),
    length freqs = length psd ->
    freq_resolution freqs = Ok dx ->
    0 <= dx ->
    Forall (fun v => 0 <= v) psd ->
    ((exists f, In f freqs /\ fst band <= f /\ f <= snd band) ->
     exists p, calculate_absolute_power freqs psd band = Ok p /\ 0 <= p)
    /\ ((forall f, In f freqs -> fst band <= f /\ f <= snd band) ->
        forall total, simps psd dx = Ok total -> ~ total == 0 ->
        exists r, calculate_relative_power freqs psd band = Ok (Fin r) /\ r == 1).
Proof.
  intros freqs psd band dx Hlen Hres Hdx Hpsd.
  unfold calculate_absolute_power, calculate_relative_power.
  rewrite Hres, (mask_index_band _ _ _ Hlen).
  split.
  - intro Hsome. apply simps_nonneg.
    + now apply masked_some_bin.
    + assumption.
    + now apply masked_Forall.
  - intros Hall total Htotal Hnz.
    rewrite (masked_all_bins _ _ _ Hlen Hall), Htotal.
    destruct (np_div_self total Hnz) as (r & Hr & Hone).
    exists r. rewrite Hr. split; [reflexivity | assumption].
Qed.

Lemma band_power_nonneg_and_full_band_witness :
  let freqs := [0; 1; 2; 3] in
  let psd := [1; 2; 3; 4] in
  (exists p, calculate_absolute_power freqs psd (1, 2) = Ok p /\ 0 <= p)
  /\ (exists r, calculate_relative_power freqs psd (0, 3) = Ok (Fin r) /\ r == 1).
Proof.
  intros freqs psd.
  assert (Hlen : length freqs = length psd) by reflexivity.
  assert (Hres : freq_resolution freqs = Ok (1 - 0)) by reflexivity.
  assert (Hdx : 0 <= 1 - 0) by discriminate.
  assert (Hpsd : Forall (fun v => 0 <= v) psd) by (repeat constructor; discriminate).
  split.
  - apply (proj1 (band_power_nonneg_and_full_band
                    freqs psd (1, 2) (1 - 0) Hlen Hres Hdx Hpsd)).
    exists 1. simpl. split; [tauto | split; lra].
  - destruct (simps_returns psd (1 - 0)) as [total Htotal]; [discriminate|].
    apply (proj2 (band_power_nonneg_and_full_band
                    freqs psd (0, 3) (1 - 0) Hlen Hres Hdx Hpsd)) with (total := total).
    + intros f Hf. simpl in Hf |- *.
      destruct Hf as [<- | [<- | [<- | [<- | []]]]]; split; lra.
    + exact Htotal.
    + vm_compute in Htotal. injection Htotal as <-. discriminate.
Defined.

(** ** The flight loop *)

(** One pass of the loop, with the monad unfolded. *)
Lemma iterate_cons (self : handler) (faults : oracle) (p : pull) (rest : list pull)
    (is_fly : bool) (tr : trace) :
  iterate self faults (p :: rest) is_fly tr =
  match p, process_data_step self p with
  | Data c, Some command =>
      match dispatch faults (c_mode c) (seen_command c command) is_fly
              (tr ++ [PullChunk]) with
      | (tr', Ok is_fly') => iterate self faults rest is_fly' tr'
      | (tr', Raise e) => (tr', Raise e)
      end
  | _, _ => iterate self faults rest is_fly (tr ++ [PullChunk])
  end.
Proof.
  cbn [iterate]. unfold bind at 1, record.
  destruct p as [|c]; [reflexivity|].
  destruct (process_data_step self (Data c)); reflexivity.
Qed.

Lemma iterate_app (self : handler) (faults : oracle) (pre post : list pull)
    (is_fly : bool) (tr : trace) :
  iterate self faults (pre ++ post) is_fly tr =
  match iterate self faults pre is_fly tr with
  | (tr', Ok is_fly') => iterate self faults post is_fly' tr'
  | (tr', Raise e) => (tr', Raise e)
  end.
Proof.
  revert is_fly tr. induction pre as [|p pre IH]; intros is_fly tr.
  - reflexivity.
  - rewrite <- app_comm_cons, !iterate_cons.
    destruct p as [|c]; [apply IH|].
    destruct (process_data_step self (Data c)) as [command|]; [|apply IH].
    destruct (dispatch faults (c_mode c) _ is_fly (tr ++ [PullChunk])) as [tr' [f|e]];
      [apply IH | reflexivity].
Qed.

(** The teardown of [processing_data]: what follows the loop is an
    [EmergencyLand] when an [Exception] was caught, then a [Land]. *)
Lemma teardown_calls (faults : oracle) (body : M unit) :
  let tr := fst (try_except_finally body
                   (fun _ => invoke faults EmergencyLand)
                   (invoke faults Land) []) in
  tr = fst (body []) ++ [Land] \/ tr = fst (body []) ++ [EmergencyLand; Land].
Proof.
  unfold try_except_finally.
  destruct (body []) as [tr1 [v|e]]; simpl.
  - left. unfold invoke. destruct (faults tr1 Land); reflexivity.
  - destruct (is_Exception e).
    + right. unfold invoke.
      destruct (faults tr1 EmergencyLand);
        destruct (faults (tr1 ++ [EmergencyLand]) Land);
        simpl; rewrite <- app_assoc; reflexivity.
    + left. unfold invoke. destruct (faults tr1 Land); reflexivity.
Qed.

(** C2, as stated, fails.  When the controller's [land] raises, the
    exception leaves [processing_data]: the [finally] clause calls it
    unguarded. *)
Lemma teardown_raises_counterexample :
  let faults : oracle :=
    fun _ c => match c with Land => Some ActuatorError | _ => None end in
  let s := {| s_safe_mode_on := false; s_pulls := [NoData];
              s_stop := KeyboardInterrupt |} in
  run default_handler faults s = ([PullChunk; Land], Raise ActuatorError).
Proof. reflexivity. Qed.

(** C2, amended.  On every exit path of the processing loop (the
    generator ends, an exception leaves a cycle, or the stop flag is already
    up) the calls of the worker are those of the loop, then [emergency_land]
    when an [Exception] was caught, and last a landing attempt, [land]; when
    that attempt raises, its exception is the result of [processing_data]:
    teardown does raise outward. *)
Theorem landing_attempt_on_every_exit :
  forall (self : handler) (faults : oracle) (s : session),
    let loop :=
      if s_safe_mode_on s then ([], Ok tt)
      else for_loop self faults (s_stop s) (s_pulls s) false [] in
    let before :=
      fst loop ++ match snd loop with
                  | Raise e => if is_Exception e then [EmergencyLand] else []
                  | Ok _ => []
                  end in
    fst (run self faults s) = before ++ [Land]
    /\ (forall e, faults before Land = Some e ->
                  snd (run self faults s) = Raise e).
Proof.
  intros self faults s. cbv zeta.
  unfold run, processing_data, try_except_finally.
  destruct (s_safe_mode_on s); cbn [negb].
  - unfold ret, invoke. cbn [fst snd app].
    destruct (faults [] Land) as [e'|]; (split; [reflexivity|]);
      intros e He; [now injection He as <- | discriminate].
  - destruct (for_loop self faults (s_stop s) (s_pulls s) false []) as [tr1 [v|e0]];
      cbn [fst snd].
    + rewrite app_nil_r. unfold invoke.
      destruct (faults tr1 Land) as [e'|]; (split; [reflexivity|]);
        intros e He; [now injection He as <- | discriminate].
    + unfold invoke. destruct (is_Exception e0).
      * destruct (faults tr1 EmergencyLand);
          destruct (faults (tr1 ++ [EmergencyLand]) Land) as [e'|];
          (split; [reflexivity|]);
          intros e He; first [now injection He as <- | discriminate].
      * rewrite app_nil_r.
        destruct (faults tr1 Land) as [e'|]; (split; [reflexivity|]);
          intros e He; [now injection He as <- | discriminate].
Qed.

Lemma landing_attempt_on_every_exit_witness :
  let faults : oracle :=
    fun _ c => match c with Land => Some ActuatorError | _ => None end in
  let s := {| s_safe_mode_on := false;
              s_pulls := [Data (mkCycle (8 # 10) 5 false false 1)];
              s_stop := IndexError |} in
  fst (run default_handler faults s)
  = [PullChunk; Takeoff; ClearBuffer; EmergencyLand] ++ [Land]
  /\ faults [PullChunk; Takeoff; ClearBuffer; EmergencyLand] Land = Some ActuatorError
  /\ snd (run default_handler faults s) = Raise ActuatorError.
Proof.
  intros faults s.
  destruct (landing_attempt_on_every_exit default_handler faults s)
    as [Htrace Hraise].
  split; [exact Htrace|].
  split; [reflexivity|].
  apply Hraise. reflexivity.
Defined.

(** With devices that never raise, the worker returns. *)
(** With devices that never raise, the worker returns. *)
Lemma iterate_no_fault (self : handler) (pulls : list pull) (is_fly : bool) (tr : trace) :
  exists tr' is_fly', iterate self no_fault pulls is_fly tr = (tr', Ok is_fly').
Proof.
  revert is_fly tr. induction pulls as [|p pulls IH]; intros is_fly tr.
  - now exists tr, is_fly.
  - rewrite iterate_cons.
    destruct p as [|c]; [apply IH|].
    destruct (process_data_step self (Data c)) as [command|]; [|apply IH].
    unfold dispatch, bind, invoke, no_fault, ret.
    destruct (_ =? 1)%Z; [destruct (negb is_fly); apply IH|].
    destruct (_ =? 2)%Z; [|apply IH].
    destruct is_fly; [|apply IH].
    destruct (c_mode c =? 1)%Z; [apply IH|].
    destruct (c_mode c =? 2)%Z; apply IH.
Qed.

(** When no device call raises, [processing_data] returns normally,
    whatever exception ends the generator: a [KeyboardInterrupt] is caught
    in the generator and anything else by [except Exception]. *)
Lemma run_no_fault_returns (self : handler) (s : session) :
  snd (run self no_fault s) = Ok tt.
Proof.
  unfold run, processing_data, try_except_finally, for_loop.
  destruct (negb (s_safe_mode_on s)); [|reflexivity].
  unfold bind.
  destruct (iterate_no_fault self (s_pulls s) false []) as (tr' & f & ->).
  destruct (s_stop s); reflexivity.
Qed.

(** The loop body issues a prefix of its script: all of it when no call
    raises, and the calls up to the one that raises otherwise. *)
Lemma dispatch_calls (faults : oracle) (mode command : Z) (is_fly : bool) (tr : trace) :
  exists n, fst (dispatch faults mode command is_fly tr)
            = tr ++ firstn n (dispatch_script mode command is_fly).
Proof.
  unfold dispatch, dispatch_script.
  assert (H3 : forall a b c (r : bool),
    exists n, fst ((invoke faults a ;; invoke faults b ;; invoke faults c ;; ret r) tr)
              = tr ++ firstn n [a; b; c]).
  { intros a b c r. unfold bind, invoke, ret.
    destruct (faults tr a); [exists 1%nat; reflexivity|].
    destruct (faults (tr ++ [a]) b);
      [exists 2%nat; simpl; now rewrite <- app_assoc|].
    exists 3%nat.
    destruct (faults ((tr ++ [a]) ++ [b]) c); simpl; now rewrite <- !app_assoc. }
  destruct (command =? 1)%Z.
  - destruct (negb is_fly); [|apply H3].
    unfold bind, invoke, ret.
    destruct (faults tr Takeoff); [exists 1%nat; reflexivity|].
    exists 2%nat.
    destruct (faults (tr ++ [Takeoff]) ClearBuffer); simpl; now rewrite <- app_assoc.
  - destruct (command =? 2)%Z; [|exists 0%nat; simpl; now rewrite app_nil_r].
    destruct is_fly; [|exists 0%nat; simpl; now rewrite app_nil_r].
    destruct (mode =? 1)%Z; [apply H3|].
    destruct (mode =? 2)%Z; apply H3.
Qed.

(** In the script of the loop body a landing and a maneuver have a flush on
    both sides; the takeoff has one after it only. *)
Lemma dispatch_script_flushes (mode command : Z) (is_fly : bool) :
  let script := dispatch_script mode command is_fly in
  script = []
  \/ script = [Takeoff; ClearBuffer]
  \/ exists c, (c = Land \/ is_maneuver c = true)
               /\ script = [ClearBuffer; c; ClearBuffer].
Proof.
  unfold dispatch_script.
  destruct (command =? 1)%Z.
  - destruct (negb is_fly); [now right; left|].
    right; right. exists Land. split; [now left | reflexivity].
  - destruct (command =? 2)%Z; [|now left].
    destruct is_fly; [|now left].
    right; right.
    destruct (mode =? 1)%Z; [|destruct (mode =? 2)%Z].
    + exists PresetCommand. split; [now right | reflexivity].
    + exists PresetCommand2. split; [now right | reflexivity].
    + exists (MoveForward 20%Z). split; [now right | reflexivity].
Qed.

(** C3.  In the run of one cycle with scores [alpha = 0.8], [beta = 5]
    from the ground, the calls are: pull, takeoff, flush, land.  The takeoff
    comes right after the pull: there is no flush before it, where the
    landing and the maneuvers of the loop flush first. *)
Theorem takeoff_without_flush_before :
  let s := {| s_safe_mode_on := false;
              s_pulls := [Data (mkCycle (8 # 10) 5 false false 1)];
              s_stop := KeyboardInterrupt |} in
  run default_handler no_fault s = ([PullChunk; Takeoff; ClearBuffer; Land], Ok tt)
  /\ flushed_both_sides None (fst (run default_handler no_fault s)) = false
  /\ dispatch_script 1 1 false = [Takeoff; ClearBuffer]
  /\ dispatch_script 1 1 true = [ClearBuffer; Land; ClearBuffer].
Proof. repeat split. Qed.

Lemma for_loop_trace (self : handler) (faults : oracle) (stop : pyexn)
    (pulls : list pull) (is_fly : bool) (tr : trace) :
  fst (for_loop self faults stop pulls is_fly tr)
  = fst (iterate self faults pulls is_fly tr).
Proof.
  unfold for_loop, bind.
  destruct (iterate self faults pulls is_fly tr) as [tr' [f|e]]; [|reflexivity].
  destruct stop; reflexivity.
Qed.

(** A pass made with the stop flag up, [safe_mode] on or [self.locked]
    set, pulls its chunk and does nothing else: a locked pass yields
    nothing, and with [safe_mode] on the command is replaced by [-1], which
    no branch of the loop body takes. *)
Lemma iterate_stopped_pass (self : handler) (faults : oracle) (c : cycle)
    (rest : list pull) (is_fly : bool) (tr : trace) :
  c_safe_mode_on c = true \/ c_locked c = true ->
  iterate self faults (Data c :: rest) is_fly tr
  = iterate self faults rest is_fly (tr ++ [PullChunk]).
Proof.
  intro Hstop. rewrite iterate_cons.
  destruct (process_data_step self (Data c)) as [command|] eqn:Estep; [|reflexivity].
  assert (Hsafe : c_safe_mode_on c = true).
  { destruct Hstop as [H | H]; [exact H|].
    unfold process_data_step in Estep. rewrite H in Estep. discriminate. }
  unfold seen_command. rewrite Hsafe.
  unfold dispatch. simpl. unfold ret. reflexivity.
Qed.

Lemma iterate_stopped (self : handler) (faults : oracle) (pulls : list pull)
    (is_fly : bool) (tr : trace) :
  (forall c, In (Data c) pulls -> c_safe_mode_on c = true \/ c_locked c = true) ->
  iterate self faults pulls is_fly tr
  = (tr ++ repeat PullChunk (length pulls), Ok is_fly).
Proof.
  revert tr. induction pulls as [|p pulls IH]; intros tr Hstop.
  - simpl. now rewrite app_nil_r.
  - assert (Hrest : forall c, In (Data c) pulls ->
                      c_safe_mode_on c = true \/ c_locked c = true).
    { intros c Hc. apply Hstop. now right. }
    assert (Hgoal : iterate self faults pulls is_fly (tr ++ [PullChunk])
                    = (tr ++ repeat PullChunk (length (p :: pulls)), Ok is_fly)).
    { rewrite (IH _ Hrest), <- app_assoc. reflexivity. }
    destruct p as [|c]; [rewrite iterate_cons; exact Hgoal|].
    rewrite iterate_stopped_pass by (apply Hstop; now left). exact Hgoal.
Qed.

(** C4.  The flag that the specification calls [locked] is raised by the
    stop events; in the code that is [safe_mode == "on"] (the field
    [self.locked] is read by the generator and never set).  While the flag
    is up no classification code reaches the loop body: a command that is
    emitted is the sentinel [-1], and the pass makes no call but its pull.
    Once the flag is up in every later pass, the worker makes no call but
    pulls of chunks and the landing calls [emergency_land] and [land]. *)
Theorem stop_flag_suppresses_commands :
  forall (self : handler) (faults : oracle) (s : session) (pre post : list pull),
    s_safe_mode_on s = false ->
    s_pulls s = pre ++ post ->
    (forall c, In (Data c) post -> c_safe_mode_on c = true \/ c_locked c = true) ->
    (forall c command,
       In (Data c) post ->
       process_data_step self (Data c) = Some command ->
       seen_command c command = (-1)%Z)
    /\ (forall c rest is_fly tr,
          In (Data c) post ->
          iterate self faults (Data c :: rest) is_fly tr
          = iterate self faults rest is_fly (tr ++ [PullChunk]))
    /\ exists tail,
         fst (run self faults s) = fst (iterate self faults pre false []) ++ tail
         /\ Forall (fun c => c = PullChunk \/ c = EmergencyLand \/ c = Land) tail.
Proof.
  intros self faults s pre post Hoff Hpulls Hstop.
  split.
  { intros c command Hc Hstep. unfold seen_command.
    destruct (Hstop c Hc) as [H | H]; [now rewrite H|].
    unfold process_data_step in Hstep. rewrite H in Hstep. discriminate. }
  split.
  { intros c rest is_fly tr Hc. apply iterate_stopped_pass. now apply Hstop. }
  unfold run, processing_data. rewrite Hoff, Hpulls. cbn [negb].
  assert (Hloop : exists pulled,
    fst (for_loop self faults (s_stop s) (pre ++ post) false [])
    = fst (iterate self faults pre false []) ++ pulled
    /\ Forall (fun c => c = PullChunk \/ c = EmergencyLand \/ c = Land) pulled).
  { rewrite for_loop_trace, iterate_app.
    destruct (iterate self faults pre false []) as [tr' [f|e]].
    - rewrite (iterate_stopped _ _ _ _ _ Hstop). simpl.
      eexists. split; [reflexivity|].
      apply Forall_forall. intros c Hc. apply repeat_spec in Hc. now left.
    - exists []. simpl. now rewrite app_nil_r. }
  destruct Hloop as (pulled & Hpulled & Hall).
  destruct (teardown_calls faults
              (for_loop self faults (s_stop s) (pre ++ post) false)) as [H | H];
    cbv zeta in H; rewrite H, Hpulled, <- app_assoc;
    eexists; (split; [reflexivity|]);
    apply Forall_app; (split; [assumption|]);
    repeat (apply Forall_cons; [first [now left | now right; left | now right; right]|]);
    apply Forall_nil.
Qed.

Lemma stop_flag_suppresses_commands_witness :
  let takeoff := mkCycle (8 # 10) 5 false false 1 in
  let stopped := mkCycle (8 # 10) 5 false true 1 in
  let locked := mkCycle (3 # 10) 25 true false 1 in
  let s := {| s_safe_mode_on := false;
              s_pulls := [Data takeoff; Data stopped; Data locked];
              s_stop := KeyboardInterrupt |} in
  process_data_step default_handler (Data stopped) = Some ALPHA_DOMINANT
  /\ seen_command stopped ALPHA_DOMINANT = (-1)%Z
  /\ iterate default_handler no_fault [Data stopped] true [PullChunk; Takeoff; ClearBuffer]
     = iterate default_handler no_fault [] true
         ([PullChunk; Takeoff; ClearBuffer] ++ [PullChunk])
  /\ exists tail,
       fst (run default_handler no_fault s)
       = fst (iterate default_handler no_fault [Data takeoff] false []) ++ tail
       /\ Forall (fun c => c = PullChunk \/ c = EmergencyLand \/ c = Land) tail.
Proof.
  intros takeoff stopped locked s.
  destruct (stop_flag_suppresses_commands default_handler no_fault s
              [Data takeoff] [Data stopped; Data locked])
    as (Hsentinel & Hpass & Htail).
  - reflexivity.
  - reflexivity.
  - intros c [Hc | [Hc | []]]; injection Hc as <-; [now left | now right].
  - split; [reflexivity|].
    split; [apply Hsentinel; [now left | reflexivity]|].
    split; [apply Hpass; now left | exact Htail].
Defined.

(** * Further properties *)

(** ** Classification and scaling together *)

(** The codes on scores that can be NaN or infinite, each by the
    condition that gives it.  Code 4 is returned exactly when the alpha
    power is NaN, or equals its threshold, or is below it with a beta power
    that is not above its threshold (NaN included).  On finite scores the
    classifier is [threshold_based_classification]. *)
Theorem classification_characterised :
  forall (self : handler) (alpha_power beta_power : npfloat),
    let code := classify_np self alpha_power beta_power in
    let alpha_thr := Fin (alpha_threshold self) in
    let beta_thr := Fin (beta_threshold self) in
    (code = ALPHA_DOMINANT <-> np_ltb alpha_thr alpha_power = true)
    /\ (code = BETA_DOMINANT <->
        np_ltb alpha_power alpha_thr = true /\ np_ltb beta_thr beta_power = true)
    /\ (code = NEITHER <->
        alpha_power = NaN
        \/ (exists x, alpha_power = Fin x /\ x == alpha_threshold self)
        \/ (np_ltb alpha_power alpha_thr = true
            /\ np_ltb beta_thr beta_power = false))
    /\ (forall x y, classify_np self (Fin x) (Fin y)
                    = threshold_based_classification self x y).
Proof.
  intros self a b code alpha_thr beta_thr.
  unfold code, alpha_thr, beta_thr, classify_np, classify_with.
  unfold ALPHA_DOMINANT, BETA_DOMINANT, NEITHER.
  set (gb := np_ltb (Fin (beta_threshold self)) b).
  split; [|split; [|split; [|reflexivity]]].
  - destruct (np_ltb (Fin (alpha_threshold self)) a); [tauto|].
    destruct (gb && np_ltb a (Fin (alpha_threshold self)));
      split; intro H; discriminate H.
  - destruct a as [x | [|] | ]; cbn [np_ltb negb].
    + case_ltb (alpha_threshold self) x; case_ltb x (alpha_threshold self);
        try (exfalso; lra);
        destruct gb; cbn [andb];
        (split; [intro H; try discriminate H; now split
                | intros [H1 H2]; first [reflexivity | discriminate]]).
    + destruct gb; cbn [andb];
        (split; [intro H; try discriminate H; now split
                | intros [H1 H2]; first [reflexivity | discriminate]]).
    + split; [intro H; discriminate H | intros [H1 H2]; discriminate].
    + rewrite andb_false_r.
      split; [intro H; discriminate H | intros [H1 H2]; discriminate].
  - destruct a as [x | [|] | ]; cbn [np_ltb negb].
    + case_ltb (alpha_threshold self) x; case_ltb x (alpha_threshold self);
        try (exfalso; lra);
        destruct gb; cbn [andb];
        (split;
         [ intro H; try discriminate H;
           first [ right; right; split; reflexivity
                 | right; left; exists x; split;
                   [reflexivity | apply Qle_antisym; assumption] ]
         | intros [H | [(y & Hy & Heq) | [H1 H2]]];
           first [ reflexivity | discriminate
                 | injection Hy as <-; exfalso; lra ] ]).
    + destruct gb; cbn [andb];
        (split;
         [ intro H; try discriminate H; right; right; split; reflexivity
         | intros [H | [(y & Hy & Heq) | [H1 H2]]];
           first [reflexivity | discriminate] ]).
    + split; [intro H; discriminate H|].
      intros [H | [(y & Hy & Heq) | [H1 H2]]]; discriminate.
    + rewrite andb_false_r. split; intro H; [now left | reflexivity].
Qed.

(** With a threshold that is not negative, the compression moves no value
    across the threshold. *)
Lemma compress_keeps_side (T v : Q) :
  0 <= T ->
  (T <? compress T v) = (T <? v) /\ (compress T v <? T) = (v <? T).
Proof.
  intro HT. unfold compress.
  case_ltb (2 * T) v; case_ltb v (4 * T); case_ltb (4 * T) v; simpl;
    try (split; reflexivity);
    (split;
     [ case_ltb T v | case_ltb v T ]);
    match goal with
    | |- (?x <? ?y) = true => apply Qltb_lt; lra
    | |- (?x <? ?y) = false => apply Qltb_ge; lra
    end.
Qed.

(** When both thresholds are in the range where no clamp applies and are
    not negative, scaling the two powers does not change the command. *)
Theorem scaling_keeps_classification :
  forall (self : handler) (alpha_power beta_power : Q),
    0 <= alpha_threshold self <= 1 ->
    0 <= beta_threshold self <= 50 ->
    threshold_based_classification self
      (signal_scaling self "alpha" alpha_power)
      (signal_scaling self "beta" beta_power)
    = threshold_based_classification self alpha_power beta_power.
Proof.
  intros self a b [Ha0 Ha1] [Hb0 Hb1].
  rewrite !signal_scaling_unfold. unfold clamp_guard, band_threshold. simpl.
  apply Qltb_ge in Ha1. apply Qltb_ge in Hb1. rewrite Ha1, Hb1.
  unfold threshold_based_classification, classify_with.
  destruct (compress_keeps_side (alpha_threshold self) a Ha0) as [-> ->].
  destruct (compress_keeps_side (beta_threshold self) b Hb0) as [-> _].
  reflexivity.
Qed.

Lemma scaling_keeps_classification_witness :
  (0 <= alpha_threshold default_handler <= 1)
  /\ (0 <= beta_threshold default_handler <= 50)
  /\ threshold_based_classification default_handler
       (signal_scaling default_handler "alpha" 2)
       (signal_scaling default_handler "beta" 100)
     = threshold_based_classification default_handler 2 100.
Proof.
  assert (Ha : 0 <= alpha_threshold default_handler <= 1) by (split; discriminate).
  assert (Hb : 0 <= beta_threshold default_handler <= 50) by (split; discriminate).
  split; [exact Ha|]. split; [exact Hb|].
  apply (scaling_keeps_classification default_handler 2 100 Ha Hb).
Defined.

(** With [alpha_threshold > 1] the alpha clamp is on, the scaled alpha
    power is the threshold plus one, and every pass that is not locked
    yields command 1, whatever the two powers are. *)
Theorem alpha_clamp_forces_command_1 :
  forall (self : handler) (c : cycle),
    1 < alpha_threshold self ->
    c_locked c = false ->
    process_data_step self (Data c) = Some ALPHA_DOMINANT.
Proof.
  intros self c Hguard Hunlocked.
  unfold process_data_step. rewrite Hunlocked. simpl negb. cbv iota.
  f_equal. apply classify_with_rule1.
  rewrite signal_scaling_unfold. unfold clamp_guard, band_threshold. simpl.
  apply Qltb_lt in Hguard. rewrite Hguard.
  apply Qltb_lt. lra.
Qed.

Lemma alpha_clamp_forces_command_1_witness :
  let self := {| alpha_threshold := 2; beta_threshold := 20; fs := 125 |} in
  let c := mkCycle 0 0 false false 1 in
  1 < alpha_threshold self
  /\ c_locked c = false
  /\ process_data_step self (Data c) = Some ALPHA_DOMINANT.
Proof.
  intros self c. split; [reflexivity|]. split; [reflexivity|].
  apply (alpha_clamp_forces_command_1 self c); reflexivity.
Defined.

(** With [beta_threshold > 50] the beta clamp is on and the command no
    longer depends on the beta power. *)
Theorem beta_clamp_ignores_beta_power :
  forall (self : handler) (alpha_power beta_power beta_power' : Q),
    50 < beta_threshold self ->
    threshold_based_classification self
      (signal_scaling self "alpha" alpha_power)
      (signal_scaling self "beta" beta_power)
    = threshold_based_classification self
        (signal_scaling self "alpha" alpha_power)
        (signal_scaling self "beta" beta_power').
Proof.
  intros self a b b' Hguard.
  rewrite (signal_scaling_unfold self "beta" b), (signal_scaling_unfold self "beta" b').
  unfold clamp_guard, band_threshold. simpl.
  apply Qltb_lt in Hguard. now rewrite Hguard.
Qed.

Lemma beta_clamp_ignores_beta_power_witness :
  let self := {| alpha_threshold := 6 # 10; beta_threshold := 60; fs := 125 |} in
  50 < beta_threshold self
  /\ threshold_based_classification self
       (signal_scaling self "alpha" (3 # 10)) (signal_scaling self "beta" 5)
     = threshold_based_classification self
         (signal_scaling self "alpha" (3 # 10)) (signal_scaling self "beta" 500).
Proof.
  intro self. split; [reflexivity|].
  apply (beta_clamp_ignores_beta_power self (3 # 10) 5 500). reflexivity.
Defined.

(** ** The shape of the loop's calls *)

Lemma dispatch_script_cases (mode command : Z) (is_fly : bool) :
  let script := dispatch_script mode command is_fly in
  let is_fly' := dispatch_is_fly command is_fly in
  (script = [] /\ is_fly' = is_fly)
  \/ (is_fly = false /\ script = [Takeoff; ClearBuffer] /\ is_fly' = true)
  \/ (is_fly = true /\ script = [ClearBuffer; Land; ClearBuffer] /\ is_fly' = false)
  \/ (is_fly = true /\ is_fly' = true
      /\ exists m, is_maneuver m = true /\ script = [ClearBuffer; m; ClearBuffer]).
Proof.
  unfold dispatch_script, dispatch_is_fly.
  destruct (command =? 1)%Z eqn:E1.
  - destruct is_fly; simpl; [right; right; left | right; left]; repeat split.
  - destruct (command =? 2)%Z; [|now left].
    destruct is_fly; [|now left].
    right; right; right. repeat split.
    destruct (mode =? 1)%Z; [|destruct (mode =? 2)%Z];
      [exists PresetCommand | exists PresetCommand2 | exists (MoveForward 20%Z)];
      split; reflexivity.
Qed.

(** The loop body either makes all the calls of its script and returns the
    new [is_fly], or stops at the first call that raises. *)
Lemma dispatch_cases (faults : oracle) (mode command : Z) (is_fly : bool) (tr : trace) :
  dispatch faults mode command is_fly tr
  = (tr ++ dispatch_script mode command is_fly,
     Ok (dispatch_is_fly command is_fly))
  \/ exists n e,
       (n < length (dispatch_script mode command is_fly))%nat
       /\ dispatch faults mode command is_fly tr
          = (tr ++ firstn (S n) (dispatch_script mode command is_fly), Raise e).
Proof.
  assert (H3 : forall a b c (r : bool),
    (invoke faults a ;; invoke faults b ;; invoke faults c ;; ret r) tr
    = (tr ++ [a; b; c], Ok r)
    \/ exists n e, (n < 3)%nat
         /\ (invoke faults a ;; invoke faults b ;; invoke faults c ;; ret r) tr
            = (tr ++ firstn (S n) [a; b; c], Raise e)).
  { intros a b c r. unfold bind, invoke, ret.
    destruct (faults tr a) as [e|];
      [right; exists 0%nat, e; split; [lia | reflexivity]|].
    destruct (faults (tr ++ [a]) b) as [e|];
      [right; exists 1%nat, e; split; [lia | simpl; now rewrite <- app_assoc]|].
    destruct (faults ((tr ++ [a]) ++ [b]) c) as [e|];
      [right; exists 2%nat, e; split; [lia | simpl; now rewrite <- !app_assoc]|].
    left. now rewrite <- !app_assoc. }
  unfold dispatch, dispatch_script, dispatch_is_fly.
  destruct (command =? 1)%Z.
  - destruct is_fly; cbn [negb]; [apply H3|].
    unfold bind, invoke, ret.
    destruct (faults tr Takeoff) as [e|];
      [right; exists 0%nat, e; split; [simpl; lia | reflexivity]|].
    destruct (faults (tr ++ [Takeoff]) ClearBuffer) as [e|];
      [right; exists 1%nat, e; split; [simpl; lia | simpl; now rewrite <- app_assoc]|].
    left. now rewrite <- app_assoc.
  - destruct (command =? 2)%Z; [|left; unfold ret; now rewrite app_nil_r].
    destruct is_fly; [|left; unfold ret; now rewrite app_nil_r].
    destruct (mode =? 1)%Z; [apply H3|].
    destruct (mode =? 2)%Z; apply H3.
Qed.

(** The calls the loop adds to the trace are a [loop_run]. *)
Lemma iterate_loop_run (self : handler) (faults : oracle) (pulls : list pull)
    (is_fly : bool) (tr : trace) :
  exists added r,
    iterate self faults pulls is_fly tr = (tr ++ added, r)
    /\ loop_run is_fly added r.
Proof.
  revert is_fly tr. induction pulls as [|p pulls IH]; intros is_fly tr.
  - exists [], (Ok is_fly). simpl. unfold ret. rewrite app_nil_r.
    split; [reflexivity | constructor].
  - rewrite iterate_cons.
    assert (Hidle : exists added r,
      iterate self faults pulls is_fly (tr ++ [PullChunk]) = (tr ++ added, r)
      /\ loop_run is_fly added r).
    { destruct (IH is_fly (tr ++ [PullChunk])) as (added & r & Heq & Hrun).
      exists (PullChunk :: added), r. rewrite Heq, <- app_assoc.
      split; [reflexivity | now constructor]. }
    destruct p as [|c]; [exact Hidle|].
    destruct (process_data_step self (Data c)) as [command|]; [|exact Hidle].
    destruct (dispatch_cases faults (c_mode c) (seen_command c command) is_fly
                (tr ++ [PullChunk])) as [-> | (n & e & Hn & ->)].
    + destruct (IH (dispatch_is_fly (seen_command c command) is_fly)
                  ((tr ++ [PullChunk])
                   ++ dispatch_script (c_mode c) (seen_command c command) is_fly))
        as (added & r & Heq & Hrun).
      exists (PullChunk
              :: dispatch_script (c_mode c) (seen_command c command) is_fly ++ added), r.
      rewrite Heq. split; [|now constructor].
      rewrite <- !app_assoc. reflexivity.
    + eexists. exists (Raise e). rewrite <- app_assoc. split; [reflexivity|].
      simpl app. now constructor.
Qed.

Lemma iterate_from_nil (self : handler) (faults : oracle) (pulls : list pull)
    (is_fly : bool) :
  exists r, loop_run is_fly (fst (iterate self faults pulls is_fly [])) r
            /\ snd (iterate self faults pulls is_fly []) = r.
Proof.
  destruct (iterate_loop_run self faults pulls is_fly []) as (added & r & -> & Hrun).
  exists r. split; [exact Hrun | reflexivity].
Qed.

(** *** The flight state *)

Lemma loop_run_flight_ok (is_fly : bool) (tr : list call) (r : outcome bool) :
  loop_run is_fly tr r -> flight_ok is_fly tr = true.
Proof.
  induction 1 as [f | mode command f tr r Hrun IH | f tr r Hrun IH | mode command f n e Hn].
  - reflexivity.
  - destruct (dispatch_script_cases mode command f)
      as [[-> Hf] | [(-> & -> & Hf) | [(-> & -> & Hf) | (-> & Hf & m & Hm & ->)]]];
      rewrite Hf in IH; simpl; try exact IH.
    destruct m; try discriminate Hm; exact IH.
  - exact IH.
  - destruct (dispatch_script_cases mode command f)
      as [[Hs _] | [(-> & Hs & _) | [(-> & Hs & _) | (-> & _ & m & Hm & Hs)]]];
      rewrite Hs in *; simpl in Hn; try lia.
    + destruct n as [|[|n]]; try reflexivity; simpl in *; lia.
    + destruct n as [|[|[|n]]]; try reflexivity; simpl in *; lia.
    + destruct n as [|[|[|n]]]; simpl in *; try lia;
        destruct m; try discriminate Hm; reflexivity.
Qed.

(** In the [for] loop a takeoff is issued only while [is_fly] is false, a
    landing and a maneuver only while it is true, whatever the pulls are and
    whichever calls raise. *)
Theorem loop_respects_flight_state :
  forall (self : handler) (faults : oracle) (pulls : list pull) (is_fly : bool),
    flight_ok is_fly (fst (iterate self faults pulls is_fly [])) = true.
Proof.
  intros self faults pulls is_fly.
  destruct (iterate_from_nil self faults pulls is_fly) as (r & Hrun & _).
  exact (loop_run_flight_ok _ _ _ Hrun).
Qed.

(** *** Flushes around the calls of the loop *)

Lemma loop_run_flushed_before (is_fly : bool) (tr : list call) (r : outcome bool) :
  loop_run is_fly tr r -> forall prev, flushed_before prev tr = true.
Proof.
  induction 1 as [f | mode command f tr r Hrun IH | f tr r Hrun IH | mode command f n e Hn];
    intro prev.
  - reflexivity.
  - destruct (dispatch_script_cases mode command f)
      as [[-> _] | [(_ & -> & _) | [(_ & -> & _) | (_ & _ & m & Hm & ->)]]];
      simpl; try apply IH.
    destruct m; try discriminate Hm; simpl; apply IH.
  - simpl. apply IH.
  - destruct (dispatch_script_cases mode command f)
      as [[Hs _] | [(_ & Hs & _) | [(_ & Hs & _) | (_ & _ & m & Hm & Hs)]]];
      rewrite Hs in *; simpl in Hn; try lia.
    + destruct n as [|[|n]]; try reflexivity; simpl in *; lia.
    + destruct n as [|[|[|n]]]; try reflexivity; simpl in *; lia.
    + destruct n as [|[|[|n]]]; simpl in *; try lia;
        destruct m; try discriminate Hm; reflexivity.
Qed.

(** In the [for] loop every landing and every maneuver comes right after a
    [clear_buffer], whichever calls raise. *)
Theorem loop_flushes_before_land_and_maneuver :
  forall (self : handler) (faults : oracle) (pulls : list pull) (is_fly : bool),
    flushed_before None (fst (iterate self faults pulls is_fly [])) = true.
Proof.
  intros self faults pulls is_fly.
  destruct (iterate_from_nil self faults pulls is_fly) as (r & Hrun & _).
  exact (loop_run_flushed_before _ _ _ Hrun None).
Qed.

Lemma flushed_after_pull (tr : list call) :
  flushed_after (PullChunk :: tr) = flushed_after tr.
Proof. reflexivity. Qed.

Lemma loop_run_head (is_fly : bool) (tr : list call) (r : outcome bool) :
  loop_run is_fly tr r -> tr = [] \/ exists rest, tr = PullChunk :: rest.
Proof. destruct 1; [now left | right; eexists; reflexivity ..]. Qed.

Lemma loop_run_flushed_after (is_fly : bool) (tr : list call) (r : outcome bool) :
  loop_run is_fly tr r -> flushed_after tr = true.
Proof.
  induction 1 as [f | mode command f tr r Hrun IH | f tr r Hrun IH | mode command f n e Hn].
  - reflexivity.
  - rewrite flushed_after_pull.
    destruct (dispatch_script_cases mode command f)
      as [[-> _] | [(_ & -> & _) | [(_ & -> & _) | (_ & _ & m & Hm & ->)]]];
      simpl; try exact IH.
    destruct m; try discriminate Hm; simpl; exact IH.
  - rewrite flushed_after_pull. exact IH.
  - rewrite flushed_after_pull.
    destruct (dispatch_script_cases mode command f)
      as [[Hs _] | [(_ & Hs & _) | [(_ & Hs & _) | (_ & _ & m & Hm & Hs)]]];
      rewrite Hs in *; simpl in Hn; try lia.
    + destruct n as [|[|n]]; try reflexivity; simpl in *; lia.
    + destruct n as [|[|[|n]]]; try reflexivity; simpl in *; lia.
    + destruct n as [|[|[|n]]]; simpl in *; try lia;
        destruct m; try discriminate Hm; reflexivity.
Qed.

(** In the [for] loop a takeoff, a landing or a maneuver is followed at
    once by a [clear_buffer], unless it is the last call of the loop (it
    raised). *)
Theorem loop_flushes_after_actuation :
  forall (self : handler) (faults : oracle) (pulls : list pull) (is_fly : bool),
    flushed_after (fst (iterate self faults pulls is_fly [])) = true.
Proof.
  intros self faults pulls is_fly.
  destruct (iterate_from_nil self faults pulls is_fly) as (r & Hrun & _).
  exact (loop_run_flushed_after _ _ _ Hrun).
Qed.

(** ** The run: loop, then teardown *)

(** The calls of a whole run.  With [safe_mode] on at the start the loop is
    skipped and the only call is [land].  Otherwise the calls are those of
    the loop, then [emergency_land] when an [Exception] left the loop, then
    [land]. *)
Theorem run_is_loop_then_teardown :
  forall (self : handler) (faults : oracle) (s : session),
    fst (run self faults s) =
    if s_safe_mode_on s then [Land]
    else
      fst (iterate self faults (s_pulls s) false [])
      ++ match snd (for_loop self faults (s_stop s) (s_pulls s) false []) with
         | Raise e => if is_Exception e then [EmergencyLand; Land] else [Land]
         | Ok _ => [Land]
         end.
Proof.
  intros self faults s. unfold run, processing_data, try_except_finally.
  destruct (s_safe_mode_on s); cbn [negb].
  - unfold ret, invoke. destruct (faults [] Land); reflexivity.
  - rewrite <- (for_loop_trace self faults (s_stop s)).
    destruct (for_loop self faults (s_stop s) (s_pulls s) false []) as [tr1 [v|e]];
      simpl fst; simpl snd.
    + unfold invoke. destruct (faults tr1 Land); reflexivity.
    + unfold invoke. destruct e; cbn [is_Exception];
        try (destruct (faults tr1 Land); reflexivity);
        destruct (faults tr1 EmergencyLand);
        destruct (faults (tr1 ++ [EmergencyLand]) Land);
        simpl; rewrite <- app_assoc; reflexivity.
Qed.

(** Passes made with [safe_mode] on pull chunks and do nothing else: the
    command is replaced by [-1], which no branch of the loop body takes. *)
Lemma iterate_safe_mode (self : handler) (faults : oracle) (pulls : list pull)
    (is_fly : bool) (tr : trace) :
  (forall c, In (Data c) pulls -> c_safe_mode_on c = true) ->
  iterate self faults pulls is_fly tr
  = (tr ++ repeat PullChunk (length pulls), Ok is_fly).
Proof.
  revert tr. induction pulls as [|p pulls IH]; intros tr Hsafe.
  - simpl. now rewrite app_nil_r.
  - rewrite iterate_cons.
    assert (Hrest : forall c, In (Data c) pulls -> c_safe_mode_on c = true).
    { intros c Hc. apply Hsafe. now right. }
    assert (Hgoal : iterate self faults pulls is_fly (tr ++ [PullChunk])
                    = (tr ++ repeat PullChunk (length (p :: pulls)), Ok is_fly)).
    { rewrite (IH _ Hrest), <- app_assoc. reflexivity. }
    destruct p as [|c]; [exact Hgoal|].
    destruct (process_data_step self (Data c)) as [command|]; [|exact Hgoal].
    unfold seen_command. rewrite (Hsafe c (or_introl eq_refl)).
    unfold dispatch. simpl. unfold ret. exact Hgoal.
Qed.

(** Once [safe_mode] is on in every later pass, the worker makes no call
    but pulls of chunks and the landing calls: no takeoff, no maneuver, no
    flush. *)
Theorem safe_mode_suppresses_flight_commands :
  forall (self : handler) (faults : oracle) (s : session) (pre post : list pull),
    s_safe_mode_on s = false ->
    s_pulls s = pre ++ post ->
    (forall c, In (Data c) post -> c_safe_mode_on c = true) ->
    exists tail,
      fst (run self faults s) = fst (iterate self faults pre false []) ++ tail
      /\ Forall (fun c => c = PullChunk \/ c = EmergencyLand \/ c = Land) tail.
Proof.
  intros self faults s pre post Hoff Hpulls Hsafe.
  unfold run, processing_data. rewrite Hoff, Hpulls. cbn [negb].
  assert (Hloop : exists pulled,
    fst (for_loop self faults (s_stop s) (pre ++ post) false [])
    = fst (iterate self faults pre false []) ++ pulled
    /\ Forall (fun c => c = PullChunk \/ c = EmergencyLand \/ c = Land) pulled).
  { rewrite for_loop_trace, iterate_app.
    destruct (iterate self faults pre false []) as [tr' [f|e]].
    - rewrite (iterate_safe_mode _ _ _ _ _ Hsafe). simpl.
      eexists. split; [reflexivity|].
      apply Forall_forall. intros c Hc. apply repeat_spec in Hc. now left.
    - exists []. simpl. now rewrite app_nil_r. }
  destruct Hloop as (pulled & Hpulled & Hall).
  destruct (teardown_calls faults
              (for_loop self faults (s_stop s) (pre ++ post) false)) as [H | H];
    cbv zeta in H; rewrite H, Hpulled, <- app_assoc;
    eexists; (split; [reflexivity|]);
    apply Forall_app; (split; [assumption|]);
    repeat (apply Forall_cons; [first [now left | now right; left | now right; right]|]);
    apply Forall_nil.
Qed.

Lemma safe_mode_suppresses_flight_commands_witness :
  let takeoff := Data (mkCycle (8 # 10) 5 false false 1) in
  let stopped := Data (mkCycle (8 # 10) 5 false true 1) in
  let s := {| s_safe_mode_on := false; s_pulls := [takeoff; stopped; stopped];
              s_stop := StreamError |} in
  exists tail,
    fst (run default_handler no_fault s)
    = fst (iterate default_handler no_fault [takeoff] false []) ++ tail
    /\ Forall (fun c => c = PullChunk \/ c = EmergencyLand \/ c = Land) tail.
Proof.
  intros takeoff stopped s.
  apply (safe_mode_suppresses_flight_commands default_handler no_fault s
           [takeoff] [stopped; stopped]).
  - reflexivity.
  - reflexivity.
  - intros c [Hc | [Hc | []]]; injection Hc as <-; reflexivity.
Defined.

(** ** The messages of the generator *)

(** The waiting line is printed on the change from data to no data only:
    never before the first chunk with data, and never twice without a chunk
    with data in between. *)
Theorem waiting_line_is_edge_triggered :
  forall (self : handler) (pulls : list pull) (is_data_coming : bool),
    waiting_once is_data_coming
      (process_data_events self pulls is_data_coming) = true.
Proof.
  intros self pulls. induction pulls as [|p pulls IH]; intro flag; simpl.
  - reflexivity.
  - destruct p as [|c].
    + destruct flag; simpl; apply IH.
    + destruct (process_data_step self (Data c)); simpl; apply IH.
Qed.

(** The commands among the messages are the commands of [process_data]. *)
Lemma yields_process_data (self : handler) (pulls : list pull) (flag : bool) :
  yields (process_data_events self pulls flag) = process_data self pulls.
Proof.
  revert flag. induction pulls as [|p pulls IH]; intro flag; simpl.
  - reflexivity.
  - destruct p as [|c].
    + destruct flag; simpl; apply IH.
    + destruct (process_data_step self (Data c)); simpl; now rewrite IH.
Qed.

(** ** The stop events *)

(** [safe_mode] is a one-way switch: after any events it is ["on"] exactly
    when it was ["on"] before or one of the events is the closing of the
    window or a press of the escape key; no event turns it off. *)
Theorem safe_mode_is_one_way :
  forall (events : list ui_event) (safe_mode : string),
    fold_left handle_event events safe_mode = "on"%string
    <-> safe_mode = "on"%string \/ existsb is_stop_event events = true.
Proof.
  induction events as [|ev events IH]; intro safe_mode; simpl.
  - split; [now left | intros [H | H]; [exact H | discriminate]].
  - rewrite IH. destruct ev as [|key]; simpl.
    + unfold on_close. split; intros _; [now right | now left].
    + unfold on_key_press, on_close.
      destruct (String.eqb key "escape"); simpl; [split; intros _; [now right | now left]|].
      reflexivity.
Qed.

(** ** Draining the inlet *)

Lemma ceil_div_step (n m : nat) :
  (0 < m -> 0 < n -> (n + m - 1) / m = S ((n - m + m - 1) / m))%nat.
Proof.
  intros Hm Hn.
  destruct (Nat.le_gt_cases m n) as [Hle | Hlt].
  - replace (n + m - 1)%nat with ((n - m + m - 1) + 1 * m)%nat by lia.
    rewrite Nat.div_add by lia. lia.
  - replace (n - m + m - 1)%nat with (m - 1)%nat by lia.
    rewrite (Nat.div_small (m - 1) m) by lia.
    replace (n + m - 1)%nat with ((n - 1) + 1 * m)%nat by lia.
    rewrite Nat.div_add by lia.
    rewrite (Nat.div_small (n - 1) m) by lia. reflexivity.
Qed.

Lemma clear_loop_drains {A : Type} (fuel max_samples : nat) (queue : list A) (pulls : nat) :
  (0 < max_samples)%nat -> (length queue < fuel)%nat ->
  clear_loop fuel max_samples queue pulls
  = Some ([], (pulls + S ((length queue + max_samples - 1) / max_samples))%nat).
Proof.
  intro Hm. revert queue pulls.
  induction fuel as [|fuel IH]; intros queue pulls Hfuel; [lia|].
  cbn [clear_loop]. unfold pull_chunk.
  destruct queue as [|a queue].
  - destruct max_samples; [lia|]. cbn [firstn skipn length].
    rewrite Nat.div_small by lia. do 2 f_equal. lia.
  - destruct max_samples as [|m]; [lia|].
    cbn [firstn].
    assert (Hlen : length (skipn (S m) (a :: queue)) = (length (a :: queue) - S m)%nat)
      by apply length_skipn.
    rewrite IH by (rewrite Hlen; simpl in *; lia).
    rewrite Hlen.
    rewrite (ceil_div_step (length (a :: queue)) (S m)) by (simpl; lia).
    do 2 f_equal. lia.
Qed.

(** [clear_buffer] returns.  With a positive chunk size [fs] it leaves the
    queue empty after one pull for each chunk of up to [fs] samples and one
    last pull that finds nothing; with [fs = 0] its first pull is empty and
    the queue is left as it was. *)
Theorem clear_buffer_drains :
  forall (A : Type) (self : handler) (queue : list A),
    ((0 < fs self)%nat ->
     clear_buffer self queue
     = Some ([], S ((length queue + fs self - 1) / fs self)))
    /\ (fs self = 0%nat -> clear_buffer self queue = Some (queue, 1%nat)).
Proof.
  intros A self queue. unfold clear_buffer. split.
  - intro Hfs. rewrite clear_loop_drains by lia. reflexivity.
  - intros ->. reflexivity.
Qed.

Lemma clear_buffer_drains_witness :
  let self := {| alpha_threshold := 6 # 10; beta_threshold := 20; fs := 2 |} in
  (0 < fs self)%nat
  /\ clear_buffer self [1; 2; 3; 4; 5]%nat = Some ([], 4%nat)
  /\ fs (mkHandler 1 1 0) = 0%nat
  /\ clear_buffer (mkHandler 1 1 0) [1; 2; 3]%nat = Some ([1; 2; 3]%nat, 1%nat).
Proof.
  intro self. split; [simpl; lia|]. split.
  - apply (proj1 (clear_buffer_drains nat self [1; 2; 3; 4; 5]%nat)). simpl; lia.
  - split; [reflexivity|].
    apply (proj2 (clear_buffer_drains nat (mkHandler 1 1 0) [1; 2; 3]%nat)).
    reflexivity.
Defined.

(** ** Peak selection, continued *)

Lemma fold_max_In (rest : list Q) (v : Q) :
  In (fold_left (fun m w => if m <? w then w else m) rest v) (v :: rest).
Proof.
  revert v. induction rest as [|w rest IH]; intro v; simpl.
  - now left.
  - destruct (IH (if v <? w then w else v)) as [H | H].
    + destruct (v <? w); [right; left | left]; exact H.
    + right; right; exact H.
Qed.

Lemma np_max_In (l : list Q) (m : Q) : np_max l = Ok m -> In m l.
Proof.
  destruct l as [|v rest]; simpl; intro H; [discriminate|].
  injection H as <-. apply fold_max_In.
Qed.

Lemma slice_In {A : Type} (l : list A) (d : A) (start stop : nat) (v : A) :
  In v (slice l start stop) ->
  exists j, (start <= j < stop)%nat /\ (j < length l)%nat /\ v = nth j l d.
Proof.
  unfold slice. intro H.
  destruct (In_nth _ _ d H) as (k & Hk & Hv).
  rewrite length_firstn, length_skipn in Hk.
  rewrite nth_firstn in Hv.
  destruct (k <? stop - start)%nat eqn:E; [|apply Nat.ltb_ge in E; lia].
  rewrite nth_skipn in Hv.
  exists (start + k)%nat. repeat split; try lia. now symmetry.
Qed.

(** The selection is the list of the peaks that pass the test of the loop,
    in the order of [find_peaks]. *)
Lemma non_maximum_suppression_filter (psd : list Q) (window_size : nat) (out : list nat) :
  non_maximum_suppression psd window_size = Ok out ->
  out = filter (keeps psd window_size) (find_peaks psd).
Proof. intro H. now apply nms_loop_filter in H. Qed.

(** With a positive [window_size], a peak that is at least every sample of
    its window [i - r .. i + r - 1] is selected: no such peak is lost. *)
Theorem non_maximum_suppression_complete :
  forall (psd : list Q) (window_size : nat) (out : list nat) (i : nat),
    (1 <= window_size)%nat ->
    non_maximum_suppression psd window_size = Ok out ->
    In i (find_peaks psd) ->
    (forall j, (i - window_size <= j < i + window_size)%nat ->
               (j < length psd)%nat ->
               nth j psd 0 <= nth i psd 0) ->
    In i out.
Proof.
  intros psd w out i Hw Hout Hpeak Hmax.
  rewrite (non_maximum_suppression_filter _ _ _ Hout).
  apply filter_In. split; [assumption|].
  destruct (find_peaks_spec psd) as (_ & Hb & _).
  rewrite Forall_forall in Hb. specialize (Hb i Hpeak).
  unfold keeps.
  assert (Hmem : In (nth i psd 0)
                   (slice psd (Nat.max 0 (i - w)) (Nat.min (length psd) (i + w)))).
  { apply slice_nth; lia. }
  destruct (np_max _) as [m|e] eqn:Emax.
  - apply Qeq_bool_iff. apply Qle_antisym.
    + pose proof (np_max_upper _ _ Emax) as Hup.
      rewrite Forall_forall in Hup. now apply Hup.
    + apply np_max_In in Emax.
      destruct (slice_In _ 0 _ _ _ Emax) as (j & Hj & Hlen & ->).
      apply Hmax; lia.
  - destruct (slice psd _ _); [contradiction | discriminate].
Qed.

Lemma non_maximum_suppression_complete_witness :
  let psd := [0; 3; 1; 2; 0] in
  (1 <= 2)%nat
  /\ non_maximum_suppression psd 2 = Ok [1%nat]
  /\ In 1%nat (find_peaks psd)
  /\ In 1%nat [1%nat].
Proof.
  intro psd. split; [lia|]. split; [reflexivity|]. split; [now left|].
  apply (non_maximum_suppression_complete psd 2 [1%nat] 1).
  - lia.
  - reflexivity.
  - now left.
  - intros j Hj Hlen. simpl in Hlen.
    destruct j as [|[|[|j]]]; simpl; try discriminate; lia.
Defined.

Lemma non_maximum_suppression_sound_witness :
  let psd := [0; 3; 1; 2; 0] in
  non_maximum_suppression psd 2 = Ok [1%nat]
  /\ StronglySorted lt [1%nat]
  /\ Forall (local_peak psd) [1%nat]
  /\ forall i, In i [1%nat] ->
       forall j, (i - 2 <= j < i + 2)%nat -> (j < length psd)%nat ->
                 nth j psd 0 <= nth i psd 0.
Proof.
  intro psd. split; [reflexivity|].
  apply (non_maximum_suppression_sound psd 2 [1%nat]). reflexivity.
Defined.

Lemma find_peaks_short (psd : list Q) :
  (length psd <= 2)%nat -> find_peaks psd = [].
Proof.
  intro H. unfold find_peaks.
  destruct (length psd) as [|n] eqn:E; [reflexivity|].
  cbn [local_maxima_loop].
  replace (1 <? S n - 1)%nat with false; [reflexivity|].
  symmetry. apply Nat.ltb_ge. lia.
Qed.

(** The selection raises only for [window_size = 0], and then as soon as
    the spectrum has a peak: the window of a peak is empty and [np.max]
    fails.  A positive [window_size] always gives a result, and a spectrum
    of fewer than three samples has no peak to select. *)
Theorem non_maximum_suppression_edge_cases :
  forall (psd : list Q),
    (find_peaks psd <> [] -> non_maximum_suppression psd 0 = Raise ValueError)
    /\ (forall window_size, (1 <= window_size)%nat ->
          exists out, non_maximum_suppression psd window_size = Ok out)
    /\ (forall window_size, (length psd <= 2)%nat ->
          non_maximum_suppression psd window_size = Ok []).
Proof.
  intro psd. repeat split.
  - intro Hne. unfold non_maximum_suppression.
    destruct (find_peaks psd) as [|peak rest]; [contradiction|].
    cbn [nms_loop]. unfold slice.
    replace (Nat.min (length psd) (peak + 0) - Nat.max 0 (peak - 0))%nat
      with 0%nat by lia.
    reflexivity.
  - intros w Hw. now apply non_maximum_suppression_total.
  - intros w Hlen. unfold non_maximum_suppression.
    now rewrite (find_peaks_short psd Hlen).
Qed.

Lemma non_maximum_suppression_edge_cases_witness :
  let psd := [0; 3; 1; 2; 0] in
  find_peaks psd <> []
  /\ non_maximum_suppression psd 0 = Raise ValueError
  /\ (exists out, non_maximum_suppression psd 5 = Ok out)
  /\ non_maximum_suppression [1; 2] 0 = Ok [].
Proof.
  intro psd.
  destruct (non_maximum_suppression_edge_cases psd) as (H0 & Hpos & _).
  destruct (non_maximum_suppression_edge_cases [1; 2]) as (_ & _ & Hshort).
  split; [discriminate|]. split; [apply H0; discriminate|].
  split; [apply Hpos; lia | apply Hshort; simpl; lia].
Defined.

(** ** Band power, continued *)

(** The scorers index [freqs[1]] and mask [psd] with a mask as long as
    [freqs]: with fewer than two frequencies, or with power values that do
    not match the frequencies in number, both raise [IndexError]. *)
Theorem band_power_index_errors :
  forall (freqs psd : list Q) (band : Q * Q),
    (length freqs < 2)%nat \/ length freqs <> length psd ->
    calculate_absolute_power freqs psd band = Raise IndexError
    /\ calculate_relative_power freqs psd band = Raise IndexError.
Proof.
  intros freqs psd band H.
  unfold calculate_absolute_power, calculate_relative_power.
  destruct (freq_resolution freqs) as [dx|e] eqn:Eres.
  - destruct H as [H | H].
    + destruct freqs as [|f0 [|f1 rest]]; simpl in *; try discriminate; lia.
    + unfold mask_index. rewrite band_mask_length.
      apply Nat.eqb_neq in H. rewrite H. split; reflexivity.
  - destruct freqs as [|f0 [|f1 rest]]; simpl in Eres;
      try discriminate; injection Eres as <-; split; reflexivity.
Qed.

Lemma band_power_index_errors_witness :
  calculate_absolute_power [10] [1] (8, 12) = Raise IndexError
  /\ calculate_relative_power [8; 9; 10] [1; 1] (8, 12) = Raise IndexError.
Proof.
  split.
  - apply (band_power_index_errors [10] [1] (8, 12)). left. simpl. lia.
  - apply (band_power_index_errors [8; 9; 10] [1; 1] (8, 12)).
    right. discriminate.
Defined.

Lemma masked_length (freqs psd : list Q) (band : Q * Q) :
  length freqs = length psd ->
  length (masked (band_mask freqs band) psd) = length (filter (in_band band) freqs).
Proof.
  revert psd. induction freqs as [|f freqs IH]; intros [|v psd] Hlen;
    simpl in *; try reflexivity; try discriminate.
  unfold in_band at 1.
  destruct ((fst band <=? f) && (f <=? snd band)); simpl; rewrite IH; auto.
Qed.

(** A band that holds a single bin has no width: Simpson's rule on one
    sample gives the absolute power 0, whatever the power of the bin. *)
Theorem single_bin_band_has_no_power :
  forall (freqs psd : list Q) (band : Q * Q) (dx : Q),
    length freqs = length psd ->
    freq_resolution freqs = Ok dx ->
    length (filter (in_band band) freqs) = 1%nat ->
    exists p, calculate_absolute_power freqs psd band = Ok p /\ p == 0.
Proof.
  intros freqs psd band dx Hlen Hres Hone.
  unfold calculate_absolute_power.
  rewrite Hres, (mask_index_band _ _ _ Hlen).
  rewrite <- (masked_length freqs psd band Hlen) in Hone.
  destruct (masked (band_mask freqs band) psd) as [|v [|w rest]];
    try discriminate Hone.
  eexists. split; [reflexivity|]. simpl. ring.
Qed.

Lemma single_bin_band_has_no_power_witness :
  exists p, calculate_absolute_power [8; 10; 12; 14] [5; 7; 9; 11] (9, 11) = Ok p
            /\ p == 0.
Proof.
  apply (single_bin_band_has_no_power
           [8; 10; 12; 14] [5; 7; 9; 11] (9, 11) (10 - 8));
    reflexivity.
Defined.

(** *** Gain *)

Lemma simpson_sum_scale_aux (c : Q) (y : list Q) :
  simpson_sum (map (Qmult c) y) == c * simpson_sum y
  /\ forall a, simpson_sum (map (Qmult c) (a :: y)) == c * simpson_sum (a :: y).
Proof.
  induction y as [|b y [IH1 IH2]].
  - split; [|intro a]; simpl; ring.
  - split; [apply IH2|].
    intro a. destruct y as [|d y].
    + simpl. ring.
    + change (simpson_sum (map (Qmult c) (a :: b :: d :: y)))
        with ((c * a + 4 * (c * b) + c * d) + simpson_sum (map (Qmult c) (d :: y))).
      change (simpson_sum (a :: b :: d :: y))
        with ((a + 4 * b + d) + simpson_sum (d :: y)).
      rewrite IH1. ring.
Qed.

Lemma simpson_sum_scale (c : Q) (y : list Q) :
  simpson_sum (map (Qmult c) y) == c * simpson_sum y.
Proof. apply simpson_sum_scale_aux. Qed.

Lemma last_scale (c : Q) (y : list Q) :
  last (map (Qmult c) y) 0 == c * last y 0.
Proof.
  induction y as [|a y IH]; simpl; [ring|].
  destruct y; [reflexivity | exact IH].
Qed.

Lemma nth_scale (c : Q) (y : list Q) (n : nat) :
  nth n (map (Qmult c) y) 0 == c * nth n y 0.
Proof.
  revert n. induction y as [|a y IH]; intros [|n]; simpl; try ring; try reflexivity.
  apply IH.
Qed.

Lemma removelast_map {A B : Type} (f : A -> B) (l : list A) :
  removelast (map f l) = map f (removelast l).
Proof.
  induction l as [|a l IH]; simpl; [reflexivity|].
  destruct l; [reflexivity|]. simpl in *. now rewrite IH.
Qed.

Lemma tl_map {A B : Type} (f : A -> B) (l : list A) :
  tl (map f l) = map f (tl l).
Proof. destruct l; reflexivity. Qed.

Lemma simps_nonempty (y : list Q) (dx : Q) :
  y <> [] ->
  simps y dx =
  if Nat.even (length y) then
    Ok ((simpson_sum (removelast y) * (dx / 3) + simpson_sum (tl y) * (dx / 3)) / 2
        + ((1 # 2) * dx * (last y 0 + nth (length y - 2) y 0)
           + (1 # 2) * dx * (nth 1 y 0 + nth 0 y 0)) / 2)
  else Ok (simpson_sum y * (dx / 3)).
Proof. destruct y; [contradiction | reflexivity]. Qed.

(** Simpson's rule is linear in the samples. *)
Lemma simps_scale (c dx : Q) (y : list Q) (p : Q) :
  simps y dx = Ok p ->
  exists p', simps (map (Qmult c) y) dx = Ok p' /\ p' == c * p.
Proof.
  destruct y as [|y0 y']; [discriminate|].
  remember (y0 :: y') as y eqn:Hy.
  rewrite (simps_nonempty y) by (subst y; discriminate).
  rewrite (simps_nonempty (map (Qmult c) y)) by (subst y; discriminate).
  rewrite length_map.
  destruct (Nat.even (length y)); intro H; injection H as <-;
    eexists; (split; [reflexivity|]).
  - rewrite removelast_map, tl_map, !simpson_sum_scale, last_scale, !nth_scale.
    field.
  - rewrite simpson_sum_scale. ring.
Qed.

Lemma masked_map (f : Q -> Q) (mask : list bool) (psd : list Q) :
  masked mask (map f psd) = map f (masked mask psd).
Proof.
  revert psd. induction mask as [|b mask IH]; intros [|v psd]; simpl; try reflexivity.
  destruct b; simpl; now rewrite IH.
Qed.

(** The absolute power is linear in the spectrum: a gain [c] on every power
    value multiplies the band power by [c]. *)
Theorem absolute_power_scales_with_gain :
  forall (freqs psd : list Q) (band : Q * Q) (c p : Q),
    calculate_absolute_power freqs psd band = Ok p ->
    exists p', calculate_absolute_power freqs (map (Qmult c) psd) band = Ok p'
               /\ p' == c * p.
Proof.
  intros freqs psd band c p. unfold calculate_absolute_power.
  destruct (freq_resolution freqs) as [dx|e]; [|discriminate].
  unfold mask_index. rewrite length_map.
  destruct (length (band_mask freqs band) =? length psd)%nat; [|discriminate].
  rewrite masked_map. apply simps_scale.
Qed.

Lemma absolute_power_scales_with_gain_witness :
  exists p p',
    calculate_absolute_power [0; 1; 2; 3] [1; 2; 3; 4] (1, 3) = Ok p
    /\ calculate_absolute_power [0; 1; 2; 3] (map (Qmult 10) [1; 2; 3; 4]) (1, 3) = Ok p'
    /\ p' == 10 * p.
Proof.
  assert (H : exists p, calculate_absolute_power [0; 1; 2; 3] [1; 2; 3; 4] (1, 3) = Ok p)
    by (eexists; reflexivity).
  destruct H as [p Hp].
  destruct (absolute_power_scales_with_gain _ _ _ 10 p Hp) as (p' & Hp' & Heq).
  exists p, p'. repeat split; assumption.
Defined.

Lemma np_div_scale (c a b a' b' : Q) :
  0 < c -> a' == c * a -> b' == c * b ->
  np_eq (np_div a b) (np_div a' b').
Proof.
  intros Hc Ha Hb. unfold np_div.
  assert (Hb0 : b == 0 <-> b' == 0).
  { rewrite Hb. split; intro H; [rewrite H; ring|].
    destruct (Qmult_integral _ _ H) as [H0 | H0]; [lra | exact H0]. }
  assert (Ha0 : a == 0 <-> a' == 0).
  { rewrite Ha. split; intro H; [rewrite H; ring|].
    destruct (Qmult_integral _ _ H) as [H0 | H0]; [lra | exact H0]. }
  assert (Hneg : a < 0 <-> a' < 0).
  { rewrite Ha. split; intro H.
    - setoid_replace 0 with (c * 0) by ring.
      apply Qmult_lt_l; assumption.
    - setoid_replace 0 with (c * 0) in H by ring.
      apply Qmult_lt_l in H; assumption. }
  destruct (Qeq_bool b 0) eqn:Eb, (Qeq_bool b' 0) eqn:Eb'.
  - destruct (Qeq_bool a 0) eqn:Ea, (Qeq_bool a' 0) eqn:Ea'; simpl.
    + exact I.
    + apply Qeq_bool_iff in Ea. apply Ha0 in Ea. apply Qeq_bool_iff in Ea. congruence.
    + apply Qeq_bool_iff in Ea'. apply Ha0 in Ea'. apply Qeq_bool_iff in Ea'. congruence.
    + case_ltb a 0; case_ltb a' 0; try reflexivity; exfalso.
      * apply Hneg in E. lra.
      * apply Hneg in E0. lra.
  - apply Qeq_bool_iff in Eb. apply Hb0 in Eb. apply Qeq_bool_iff in Eb. congruence.
  - apply Qeq_bool_iff in Eb'. apply Hb0 in Eb'. apply Qeq_bool_iff in Eb'. congruence.
  - simpl. rewrite Ha, Hb.
    apply Qeq_bool_neq in Eb. field. split; [exact Eb | lra].
Qed.

(** The relative power does not depend on a positive gain: multiplying
    every power value by [c > 0] leaves it as it was, NaN and the
    infinities included. *)
Theorem relative_power_ignores_gain :
  forall (freqs psd : list Q) (band : Q * Q) (c : Q) (r : npfloat),
    0 < c ->
    calculate_relative_power freqs psd band = Ok r ->
    exists r', calculate_relative_power freqs (map (Qmult c) psd) band = Ok r'
               /\ np_eq r r'.
Proof.
  intros freqs psd band c r Hc. unfold calculate_relative_power.
  destruct (freq_resolution freqs) as [dx|e]; [|discriminate].
  unfold mask_index. rewrite length_map.
  destruct (length (band_mask freqs band) =? length psd)%nat; [|discriminate].
  rewrite masked_map.
  destruct (simps (masked (band_mask freqs band) psd) dx) as [bp|e] eqn:Ebp;
    [|discriminate].
  destruct (simps psd dx) as [tp|e] eqn:Etp; [|discriminate].
  destruct (simps_scale c dx _ _ Ebp) as (bp' & -> & Hbp).
  destruct (simps_scale c dx _ _ Etp) as (tp' & -> & Htp).
  intro H. injection H as <-.
  eexists. split; [reflexivity|].
  now apply (np_div_scale c).
Qed.

Lemma relative_power_ignores_gain_witness :
  exists r r',
    calculate_relative_power [0; 1; 2; 3] [1; 2; 3; 4] (1, 3) = Ok r
    /\ calculate_relative_power [0; 1; 2; 3] (map (Qmult 10) [1; 2; 3; 4]) (1, 3) = Ok r'
    /\ np_eq r r'.
Proof.
  assert (H : exists r, calculate_relative_power [0; 1; 2; 3] [1; 2; 3; 4] (1, 3) = Ok r)
    by (eexists; reflexivity).
  destruct H as [r Hr].
  assert (Hc : 0 < 10) by reflexivity.
  destruct (relative_power_ignores_gain _ _ _ 10 r Hc Hr) as (r' & Hr' & Heq).
  exists r, r'. repeat split; assumption.
Defined.

(** *** A flat spectrum *)

Lemma simpson_sum_flat (v : Q) (k : nat) :
  simpson_sum (repeat v (2 * k + 1)) == 6 * v * inject_Z (Z.of_nat k)
  /\ simpson_sum (repeat v (2 * k + 2)) == 6 * v * inject_Z (Z.of_nat k).
Proof.
  induction k as [|k [IH1 IH2]].
  - split; simpl; ring.
  - replace (2 * S k + 1)%nat with (S (S (2 * k + 1))) by lia.
    replace (2 * S k + 2)%nat with (S (S (2 * k + 2))) by lia.
    rewrite Nat2Z.inj_succ, <- Z.add_1_r, inject_Z_plus.
    split.
    + replace (2 * k + 1)%nat with (S (2 * k)) in * by lia.
      change (simpson_sum (repeat v (S (S (S (2 * k))))))
        with ((v + 4 * v + v) + simpson_sum (repeat v (S (2 * k)))).
      rewrite IH1. simpl (inject_Z 1). ring.
    + replace (2 * k + 2)%nat with (S (S (2 * k))) in * by lia.
      change (simpson_sum (repeat v (S (S (S (S (2 * k)))))))
        with ((v + 4 * v + v) + simpson_sum (repeat v (S (S (2 * k))))).
      rewrite IH2. simpl (inject_Z 1). ring.
Qed.

Lemma removelast_repeat {A : Type} (v : A) (n : nat) :
  removelast (repeat v (S n)) = repeat v n.
Proof.
  induction n as [|n IH]; [reflexivity|].
  change (repeat v (S (S n))) with (v :: repeat v (S n)).
  cbn [removelast]. change (repeat v (S n)) with (v :: repeat v n) at 1.
  now rewrite IH.
Qed.

Lemma last_repeat {A : Type} (v d : A) (n : nat) :
  last (repeat v (S n)) d = v.
Proof.
  induction n as [|n IH]; [reflexivity|].
  change (repeat v (S (S n))) with (v :: repeat v (S n)).
  cbn [last]. change (repeat v (S n)) with (v :: repeat v n) at 1. exact IH.
Qed.

Lemma nth_repeat_lt {A : Type} (v d : A) (n i : nat) :
  (i < n)%nat -> nth i (repeat v n) d = v.
Proof.
  revert i. induction n as [|n IH]; intros i Hi; [lia|].
  destruct i; [reflexivity|]. simpl. apply IH. lia.
Qed.

(** Simpson's rule is exact on a constant: [n] samples of value [v] with
    step [dx] integrate to [v * dx * (n - 1)]. *)
Lemma simps_flat (v dx : Q) (n : nat) :
  exists p, simps (repeat v (S n)) dx = Ok p
            /\ p == v * dx * inject_Z (Z.of_nat n).
Proof.
  rewrite simps_nonempty by discriminate.
  rewrite repeat_length.
  destruct (Nat.even (S n)) eqn:Even.
  - (* an even number of samples: S n = 2 k + 2 *)
    apply Nat.even_spec in Even. destruct Even as [m Hm].
    destruct m as [|k]; [lia|].
    assert (Hn : n = (2 * k + 1)%nat) by lia.
    eexists. split; [reflexivity|].
    rewrite removelast_repeat, last_repeat.
    rewrite !nth_repeat_lt by lia.
    change (tl (repeat v (S n))) with (repeat v n).
    subst n.
    rewrite (proj1 (simpson_sum_flat v k)).
    replace (Z.of_nat (2 * k + 1)) with (2 * Z.of_nat k + 1)%Z by lia.
    rewrite inject_Z_plus, inject_Z_mult. simpl (inject_Z 1). simpl (inject_Z 2).
    field.
  - (* an odd number of samples: S n = 2 k + 1 *)
    assert (Hodd : Nat.odd (S n) = true) by (rewrite <- Nat.negb_even, Even; reflexivity).
    apply Nat.odd_spec in Hodd. destruct Hodd as [k Hk].
    assert (Hn : n = (2 * k)%nat) by lia.
    eexists. split; [reflexivity|].
    replace (S n) with (2 * k + 1)%nat by lia.
    rewrite (proj1 (simpson_sum_flat v k)).
    subst n.
    replace (Z.of_nat (2 * k)) with (2 * Z.of_nat k)%Z by lia.
    rewrite inject_Z_mult. simpl (inject_Z 2). field.
Qed.

Lemma masked_repeat (v : Q) (mask : list bool) :
  masked mask (repeat v (length mask))
  = repeat v (length (filter (fun b => b) mask)).
Proof.
  induction mask as [|b mask IH]; [reflexivity|].
  simpl. destruct b; simpl; now rewrite IH.
Qed.

Lemma filter_band_mask (freqs : list Q) (band : Q * Q) :
  length (filter (fun b => b) (band_mask freqs band))
  = length (filter (in_band band) freqs).
Proof.
  induction freqs as [|f freqs IH]; [reflexivity|].

  simpl. unfold in_band at 1.
  destruct ((fst band <=? f) && (f <=? snd band)); simpl; now rewrite IH.
Qed.

(** On a flat spectrum of level [v] the absolute power of a band is the
    level times the width of the band, [(k - 1) * dx] for the [k >= 1] bins
    the band holds. *)
Theorem flat_spectrum_band_power :
  forall (freqs : list Q) (band : Q * Q) (v dx : Q) (k : nat),
    freq_resolution freqs = Ok dx ->
    length (filter (in_band band) freqs) = S k ->
    exists p,
      calculate_absolute_power freqs (repeat v (length freqs)) band = Ok p
      /\ p == v * dx * inject_Z (Z.of_nat k).
Proof.
  intros freqs band v dx k Hres Hk.
  unfold calculate_absolute_power.
  rewrite Hres, mask_index_band by (now rewrite repeat_length).
  rewrite <- (band_mask_length freqs band).
  rewrite masked_repeat, filter_band_mask, Hk.
  apply simps_flat.
Qed.

Lemma flat_spectrum_band_power_witness :
  exists p,
    calculate_absolute_power [6; 8; 10; 12; 14]
      (repeat 3 (length [6; 8; 10; 12; 14])) (8, 12) = Ok p
    /\ p == 3 * (8 - 6) * inject_Z (Z.of_nat 2).
Proof.
  apply (flat_spectrum_band_power [6; 8; 10; 12; 14] (8, 12) 3 (8 - 6) 2);
    reflexivity.
Defined.
